(** * BitfinexFundingData: the task scheduler ([scheduler/scheduler.go]),
    the retrying statistics task ([task/task.go]) and the shutdown path of
    [main.go].

    The scheduler is a set of goroutines around one buffered channel.  It is
    embedded as a labelled transition system: a [World] holds the [Scheduler]
    struct, the heap of [PeriodicTask] objects, the clock, the cancelled
    contexts and the program counter of every goroutine the scheduler
    spawns; [step] executes one atomic action of one goroutine (or of the
    caller, the clock or a timer).  The methods of the source are functions
    on [World], and [step] calls them. *)

From Stdlib Require Import ZArith Lia Bool List.
From stdpp Require Import base option list gmap strings pretty.

Local Open Scope Z_scope.

(** ** Durations, times and errors *)

(** [time.Duration] is an int64 count of nanoseconds. *)
Definition Duration := Z.

(** A [time.Time] taken by [time.Now()] carries a monotonic clock reading,
    an int64 count of nanoseconds; [time.Since] works on that reading. *)
Definition Time := Z.

Definition Millisecond : Duration := 1000000.
Definition Second : Duration := 1000 * Millisecond.
Definition Minute : Duration := 60 * Second.
Definition Hour : Duration := 60 * Minute.

Definition minInt64 : Z := - 2 ^ 63.
Definition maxInt64 : Z := 2 ^ 63 - 1.

Definition int64 (z : Z) : Prop := minInt64 <= z <= maxInt64.

(** Two's complement wrap-around of int64 arithmetic. *)
Definition wrap64 (z : Z) : Z := (z + 2 ^ 63) mod 2 ^ 64 - 2 ^ 63.

(** [Time.Sub] saturates at the ends of the [Duration] range. *)
Definition sat64 (z : Z) : Z :=
  if z <? minInt64 then minInt64
  else if maxInt64 <? z then maxInt64
  else z.

(** Go's [error]: [None] is [nil]. *)
Definition error := option string.

(** ** Tasks *)

Record RetryPolicy := mkRetryPolicy {
  MaxRetries : Z;
  BackoffBase : Duration
}.

Record BaseTask := mkBaseTask {
  Name : string;
  Priority : Z;
  BaseTask_RetryPolicy : RetryPolicy
}.

Definition BaseTask_GetName (t : BaseTask) : string := Name t.
Definition BaseTask_GetPriority (t : BaseTask) : Z := Priority t.
Definition BaseTask_GetRetryPolicy (t : BaseTask) : RetryPolicy :=
  BaseTask_RetryPolicy t.

(** Addresses of [PeriodicTask] objects. *)
Definition loc := nat.
Bind Scope nat_scope with loc.

(** [runFunc] is a closure the scheduler never looks into: it is kept as an
    identifier, and what a call of it returns is a label of the transition
    system.  [p_mu] is the task's [sync.Mutex]: [true] when held. *)
Record PeriodicTask := mkPeriodicTask {
  PT_BaseTask : BaseTask;
  interval : Duration;
  lastRun : Time;
  runFunc : nat;
  p_mu : bool
}.

(** A value of the [Task] interface: a pointer to a [PeriodicTask], or any
    other implementation, of which the scheduler sees the embedded [BaseTask]
    ([body] identifies its [Execute]). *)
Inductive Task :=
| PeriodicRef (l : loc)
| OtherTask (b : BaseTask) (body : nat).

#[global] Instance RetryPolicy_eq_dec : EqDecision RetryPolicy.
Proof. solve_decision. Defined.
#[global] Instance BaseTask_eq_dec : EqDecision BaseTask.
Proof. solve_decision. Defined.
#[global] Instance Task_eq_dec : EqDecision Task.
Proof. solve_decision. Defined.

(** [context.Context]: [context.Background()] is never cancelled; a context
    made by [context.WithCancel] is identified by a number. *)
Inductive Context :=
| Background
| WithCancel (id : nat).

(** ** The task channel *)

(** [make(chan Task, queueSize)]: the buffer and its capacity.  The receivers
    parked on the channel are the workers whose program counter is [WParked]
    (below); they are found in the pool rather than kept in a queue of their
    own, since workers are interchangeable. *)
Record chan := mkChan {
  buf : list Task;
  cap : Z
}.

(** The outcome of a send that must not block ([select] with [default]):
    the runtime hands the value to a parked receiver if there is one, else
    puts it in the buffer if there is room, else gives up. *)
Inductive send_result :=
| SentTo (receiver : nat)
| Buffered (c : chan)
| WouldBlock.

Definition chansend_nb (c : chan) (receiver : option nat) (t : Task)
  : send_result :=
  match receiver with
  | Some r => SentTo r
  | None =>
      if Z.of_nat (length (buf c)) <? cap c
      then Buffered {| buf := buf c ++ [t]; cap := cap c |}
      else WouldBlock
  end.

(** [make(chan Task, size)] panics for a negative size and for one beyond
    what the runtime can allocate ([limit], which depends on the platform). *)
Definition makechan (limit size : Z) : option chan :=
  if (size <? 0) || (limit <? size) then None
  else Some {| buf := []; cap := size |}.

(** ** The scheduler and the world around it *)

(** [mu] is the registry's [sync.Mutex] ([true] when held), [wg] the
    counter of the [sync.WaitGroup], [quit] whether the quit channel has
    been closed. *)
Record Scheduler := mkScheduler {
  workers : Z;
  queueSize : Z;
  taskQueue : chan;
  periodicTask : gmap string loc;
  mu : bool;
  wg : Z;
  quit : bool
}.

(** A worker goroutine: at the top of its loop, parked in its [select],
    holding a task it has just received, inside [task.Execute], woken by the
    closed quit channel and about to return, or gone. *)
Inductive worker_pc :=
| WLoop
| WParked
| WRecvd (t : Task)
| WExec (t : Task)
| WQuit
| WDone.

(** The goroutine of [ScheduleWithDelay]: not yet run, waiting in its
    [select] on a timer due at [due] whose channel holds a value or not, or
    gone (having stopped its timer or not). *)
Inductive delay_pc :=
| DNew (t : Task) (c : Context) (delay : Duration)
| DSelect (t : Task) (c : Context) (due : Time) (fired : bool)
| DDone (stopped : bool).

(** The goroutine of [ScheduleRecurring]: not yet run, in its loop on a
    ticker whose next tick is due at [next] and whose channel holds a tick or
    not, or gone (its ticker stopped by the deferred call). *)
Inductive ticker_pc :=
| RNew (t : Task) (c : Context) (every : Duration)
| RLoop (t : Task) (c : Context) (every : Duration) (next : Time)
    (pending : bool)
| RDone.

(** Instrumentation: every read and write of shared data is logged with
    whether the lock that belongs to it was held. *)
Inductive shared :=
| Registry
| LastRunOf (l : loc).

Inductive access_kind := Read | Write.

Record access := mkAccess {
  acc_what : shared;
  acc_kind : access_kind;
  acc_locked : bool
}.

Record World := mkWorld {
  sched : Scheduler;
  heap : list PeriodicTask;
  now : Time;
  cancelled : list nat;
  pool : list worker_pc;
  delayed : list delay_pc;
  recurring : list ticker_pc;
  executions : list Task;
  accesses : list access;
  stop_waiting : nat;
  stop_returned : nat;
  panicked : option string
}.

(** *** Field updates *)

Definition set_taskQueue (s : Scheduler) (c : chan) : Scheduler :=
  {| workers := workers s; queueSize := queueSize s; taskQueue := c;
     periodicTask := periodicTask s; mu := mu s; wg := wg s;
     quit := quit s |}.

Definition set_periodicTask (s : Scheduler) (m : gmap string loc)
  : Scheduler :=
  {| workers := workers s; queueSize := queueSize s;
     taskQueue := taskQueue s; periodicTask := m; mu := mu s; wg := wg s;
     quit := quit s |}.

Definition set_mu (s : Scheduler) (b : bool) : Scheduler :=
  {| workers := workers s; queueSize := queueSize s;
     taskQueue := taskQueue s; periodicTask := periodicTask s; mu := b;
     wg := wg s; quit := quit s |}.

Definition set_wg (s : Scheduler) (n : Z) : Scheduler :=
  {| workers := workers s; queueSize := queueSize s;
     taskQueue := taskQueue s; periodicTask := periodicTask s; mu := mu s;
     wg := n; quit := quit s |}.

Definition set_quit (s : Scheduler) (b : bool) : Scheduler :=
  {| workers := workers s; queueSize := queueSize s;
     taskQueue := taskQueue s; periodicTask := periodicTask s; mu := mu s;
     wg := wg s; quit := b |}.

Definition with_sched (w : World) (s : Scheduler) : World :=
  {| sched := s; heap := heap w; now := now w; cancelled := cancelled w;
     pool := pool w; delayed := delayed w; recurring := recurring w;
     executions := executions w; accesses := accesses w;
     stop_waiting := stop_waiting w; stop_returned := stop_returned w;
     panicked := panicked w |}.

Definition with_heap (w : World) (h : list PeriodicTask) : World :=
  {| sched := sched w; heap := h; now := now w; cancelled := cancelled w;
     pool := pool w; delayed := delayed w; recurring := recurring w;
     executions := executions w; accesses := accesses w;
     stop_waiting := stop_waiting w; stop_returned := stop_returned w;
     panicked := panicked w |}.

Definition with_now (w : World) (t : Time) : World :=
  {| sched := sched w; heap := heap w; now := t; cancelled := cancelled w;
     pool := pool w; delayed := delayed w; recurring := recurring w;
     executions := executions w; accesses := accesses w;
     stop_waiting := stop_waiting w; stop_returned := stop_returned w;
     panicked := panicked w |}.

Definition with_cancelled (w : World) (cs : list nat) : World :=
  {| sched := sched w; heap := heap w; now := now w; cancelled := cs;
     pool := pool w; delayed := delayed w; recurring := recurring w;
     executions := executions w; accesses := accesses w;
     stop_waiting := stop_waiting w; stop_returned := stop_returned w;
     panicked := panicked w |}.

Definition with_pool (w : World) (p : list worker_pc) : World :=
  {| sched := sched w; heap := heap w; now := now w;
     cancelled := cancelled w; pool := p; delayed := delayed w;
     recurring := recurring w; executions := executions w;
     accesses := accesses w; stop_waiting := stop_waiting w;
     stop_returned := stop_returned w; panicked := panicked w |}.

Definition with_delayed (w : World) (d : list delay_pc) : World :=
  {| sched := sched w; heap := heap w; now := now w;
     cancelled := cancelled w; pool := pool w; delayed := d;
     recurring := recurring w; executions := executions w;
     accesses := accesses w; stop_waiting := stop_waiting w;
     stop_returned := stop_returned w; panicked := panicked w |}.

Definition with_recurring (w : World) (r : list ticker_pc) : World :=
  {| sched := sched w; heap := heap w; now := now w;
     cancelled := cancelled w; pool := pool w; delayed := delayed w;
     recurring := r; executions := executions w; accesses := accesses w;
     stop_waiting := stop_waiting w; stop_returned := stop_returned w;
     panicked := panicked w |}.

Definition with_executions (w : World) (e : list Task) : World :=
  {| sched := sched w; heap := heap w; now := now w;
     cancelled := cancelled w; pool := pool w; delayed := delayed w;
     recurring := recurring w; executions := e; accesses := accesses w;
     stop_waiting := stop_waiting w; stop_returned := stop_returned w;
     panicked := panicked w |}.

Definition with_accesses (w : World) (a : list access) : World :=
  {| sched := sched w; heap := heap w; now := now w;
     cancelled := cancelled w; pool := pool w; delayed := delayed w;
     recurring := recurring w; executions := executions w; accesses := a;
     stop_waiting := stop_waiting w; stop_returned := stop_returned w;
     panicked := panicked w |}.

Definition with_stops (w : World) (waiting returned : nat) : World :=
  {| sched := sched w; heap := heap w; now := now w;
     cancelled := cancelled w; pool := pool w; delayed := delayed w;
     recurring := recurring w; executions := executions w;
     accesses := accesses w; stop_waiting := waiting;
     stop_returned := returned; panicked := panicked w |}.

Definition with_panic (w : World) (msg : string) : World :=
  {| sched := sched w; heap := heap w; now := now w;
     cancelled := cancelled w; pool := pool w; delayed := delayed w;
     recurring := recurring w; executions := executions w;
     accesses := accesses w; stop_waiting := stop_waiting w;
     stop_returned := stop_returned w; panicked := Some msg |}.

Definition set_lastRun (p : PeriodicTask) (t : Time) : PeriodicTask :=
  {| PT_BaseTask := PT_BaseTask p; interval := interval p; lastRun := t;
     runFunc := runFunc p; p_mu := p_mu p |}.

Definition set_p_mu (p : PeriodicTask) (b : bool) : PeriodicTask :=
  {| PT_BaseTask := PT_BaseTask p; interval := interval p;
     lastRun := lastRun p; runFunc := runFunc p; p_mu := b |}.

(** ** The methods of the [Task] interface *)

(** The zero [BaseTask], for a pointer that addresses nothing. *)
Definition zeroBaseTask : BaseTask :=
  {| Name := ""; Priority := 0;
     BaseTask_RetryPolicy := {| MaxRetries := 0; BackoffBase := 0 |} |}.

Definition baseOf (w : World) (t : Task) : BaseTask :=
  match t with
  | PeriodicRef l =>
      match heap w !! l with
      | Some p => PT_BaseTask p
      | None => zeroBaseTask
      end
  | OtherTask b _ => b
  end.

Definition GetName (w : World) (t : Task) : string :=
  BaseTask_GetName (baseOf w t).
Definition GetPriority (w : World) (t : Task) : Z :=
  BaseTask_GetPriority (baseOf w t).
Definition GetRetryPolicy (w : World) (t : Task) : RetryPolicy :=
  BaseTask_GetRetryPolicy (baseOf w t).

(** ** Construction and start *)

(** [NewScheduler]: the struct literal with its two [make(chan ...)] and
    the [make(map ...)].  Nothing is checked; the only way not to return is
    the panic of [make(chan Task, queueSize)].  The world starts at clock
    reading [t0] with no goroutine. *)
Definition NewScheduler (limit : Z) (t0 : Time) (workers queueSize : Z)
  : option World :=
  c ← makechan limit queueSize;
  Some {| sched := {| workers := workers; queueSize := queueSize;
                      taskQueue := c; periodicTask := ∅; mu := false;
                      wg := 0; quit := false |};
          heap := []; now := t0; cancelled := []; pool := [];
          delayed := []; recurring := []; executions := []; accesses := [];
          stop_waiting := 0; stop_returned := 0; panicked := None |}.

(** [Start]: [for i := 0; i < s.workers; i++ { s.wg.Add(1); go s.worker() }].
    The loop runs [max 0 workers] times. *)
Definition Start (w : World) : World :=
  let n := Z.to_nat (workers (sched w)) in
  with_pool (with_sched w (set_wg (sched w) (wg (sched w) + Z.of_nat n)))
            (pool w ++ replicate n WLoop).

(** [StartWithContext] calls [Start] and returns [nil]. *)
Definition StartWithContext (c : Context) (w : World) : World * error :=
  (Start w, None).

(** ** Submission *)

(** The first worker parked in its [select], if any. *)
Fixpoint find_parked (p : list worker_pc) : option nat :=
  match p with
  | [] => None
  | WParked :: _ => Some 0%nat
  | _ :: p' => S <$> find_parked p'
  end.

(** [SubmitTask]: a [select] with the send and an empty [default].  The
    method has no result. *)
Definition SubmitTask (task : Task) (w : World) : World :=
  match chansend_nb (taskQueue (sched w)) (find_parked (pool w)) task with
  | SentTo r => with_pool w (<[r := WRecvd task]> (pool w))
  | Buffered c => with_sched w (set_taskQueue (sched w) c)
  | WouldBlock => w
  end.

(** [Schedule] calls [SubmitTask] and returns [nil]. *)
Definition Schedule (c : Context) (task : Task) (w : World)
  : World * error :=
  (SubmitTask task w, None).

(** [ScheduleWithDelay] and [ScheduleRecurring] start a goroutine and
    return [nil]. *)
Definition ScheduleWithDelay (c : Context) (task : Task) (delay : Duration)
  (w : World) : World * error :=
  (with_delayed w (delayed w ++ [DNew task c delay]), None).

Definition ScheduleRecurring (c : Context) (task : Task) (every : Duration)
  (w : World) : World * error :=
  (with_recurring w (recurring w ++ [RNew task c every]), None).

(** [Cancel]: the body is a comment and [return nil]. *)
Definition Cancel (taskName : string) (w : World) : World * error :=
  (w, None).

(** ** Locks and the data they guard *)

(** [sync.Mutex.Lock] on a held mutex does not return (here: no result),
    [Unlock] on a free one is a fatal error (no result either). *)
Definition mu_Lock (w : World) : option World :=
  if mu (sched w) then None
  else Some (with_sched w (set_mu (sched w) true)).

Definition mu_Unlock (w : World) : option World :=
  if mu (sched w) then Some (with_sched w (set_mu (sched w) false))
  else None.

(** [s.periodicTask[name] = task]. *)
Definition registry_store (name : string) (l : loc) (w : World) : World :=
  with_accesses
    (with_sched w
       (set_periodicTask (sched w) (<[name := l]> (periodicTask (sched w)))))
    (accesses w ++ [mkAccess Registry Write (mu (sched w))]).

Definition p_Lock (l : loc) (w : World) : option World :=
  p ← heap w !! l;
  if p_mu p then None
  else Some (with_heap w (<[l := set_p_mu p true]> (heap w))).

Definition p_Unlock (l : loc) (w : World) : option World :=
  p ← heap w !! l;
  if p_mu p then Some (with_heap w (<[l := set_p_mu p false]> (heap w)))
  else None.

(** [p.lastRun = t]. *)
Definition store_lastRun (l : loc) (t : Time) (w : World) : option World :=
  p ← heap w !! l;
  Some (with_accesses (with_heap w (<[l := set_lastRun p t]> (heap w)))
          (accesses w ++ [mkAccess (LastRunOf l) Write (p_mu p)])).

(** The read of [p.lastRun]. *)
Definition load_lastRun (l : loc) (w : World) : option (Time * World) :=
  p ← heap w !! l;
  Some (lastRun p,
        with_accesses w
          (accesses w ++ [mkAccess (LastRunOf l) Read (p_mu p)])).

Definition time_Now (w : World) : Time := now w.

(** [time.Since(t)] is [time.Now().Sub(t)]. *)
Definition time_Since (w : World) (t : Time) : Duration :=
  sat64 (time_Now w - t).

(** ** Periodic tasks *)

(** [NewPeriodicTask]: a new object with [lastRun: time.Now()], stored in
    the registry under the lock of the scheduler; the pointer is returned. *)
Definition NewPeriodicTask (name : string) (every : Duration)
  (run : nat) (priority : Z) (w : World) : option (loc * World) :=
  let task :=
    {| PT_BaseTask :=
         {| Name := name; Priority := priority;
            BaseTask_RetryPolicy :=
              {| MaxRetries := 3; BackoffBase := 500 * Millisecond |} |};
       interval := every; lastRun := time_Now w; runFunc := run;
       p_mu := false |} in
  let l := length (heap w) in
  let w0 := with_heap w (heap w ++ [task]) in
  w1 ← mu_Lock w0;
  let w2 := registry_store name l w1 in
  w3 ← mu_Unlock w2;
  Some (l, w3).

(** [PeriodicTask.Execute] up to the call of [runFunc]:
    [p.mu.Lock(); p.lastRun = time.Now(); p.mu.Unlock()]. *)
Definition PeriodicTask_Execute_enter (l : loc) (w : World)
  : option World :=
  w1 ← p_Lock l w;
  w2 ← store_lastRun l (time_Now w1) w1;
  p_Unlock l w2.

(** [PeriodicTask.Execute], where the call [p.runFunc(ctx)] takes [took]
    nanoseconds and returns [result]. *)
Definition PeriodicTask_Execute (l : loc) (took : Duration) (result : error)
  (w : World) : option (error * World) :=
  w1 ← PeriodicTask_Execute_enter l w;
  Some (result, with_now w1 (now w1 + took)).

(** [ShouldRun]: the unlock is deferred, so it runs once the result has
    been computed. *)
Definition ShouldRun (l : loc) (w : World) : option (bool * World) :=
  w1 ← p_Lock l w;
  '(lr, w2) ← load_lastRun l w1;
  p ← heap w2 !! l;
  let r := interval p <=? time_Since w2 lr in
  w3 ← p_Unlock l w2;
  Some (r, w3).

(** The entry of [task.Execute(ctx)] through the interface. *)
Definition Execute_enter (t : Task) (w : World) : option World :=
  match t with
  | PeriodicRef l => PeriodicTask_Execute_enter l w
  | OtherTask _ _ => Some w
  end.

(** ** The worker *)

(** What the worker does with the result of [task.Execute(ctx)]: both
    [if]s have no statement in them, and the loop goes on. *)
Definition worker_after (w : World) (task : Task) (err : error)
  : worker_pc :=
  match err with
  | Some _ =>
      let policy := GetRetryPolicy w task in
      if 0 <? MaxRetries policy then WLoop else WLoop
  | None => WLoop
  end.

Definition set_buf (w : World) (b : list Task) : World :=
  with_sched w
    (set_taskQueue (sched w)
       {| buf := b; cap := cap (taskQueue (sched w)) |}).

(** [case task := <-s.taskQueue] from the buffer. *)
Definition worker_select_task (i : nat) (w : World) : option World :=
  match pool w !! i, buf (taskQueue (sched w)) with
  | Some WLoop, t :: rest =>
      Some (with_pool (set_buf w rest) (<[i := WRecvd t]> (pool w)))
  | _, _ => None
  end.

(** [case <-s.quit] on the closed channel. *)
Definition worker_select_quit (i : nat) (w : World) : option World :=
  match pool w !! i with
  | Some WLoop =>
      if quit (sched w) then Some (with_pool w (<[i := WQuit]> (pool w)))
      else None
  | _ => None
  end.

(** No case is ready: the worker parks. *)
Definition worker_park (i : nat) (w : World) : option World :=
  match pool w !! i, buf (taskQueue (sched w)) with
  | Some WLoop, [] =>
      if quit (sched w) then None
      else Some (with_pool w (<[i := WParked]> (pool w)))
  | _, _ => None
  end.

(** [err := task.Execute(ctx)] begins, with [ctx := context.Background()]. *)
Definition worker_execute (i : nat) (w : World) : option World :=
  match pool w !! i with
  | Some (WRecvd t) =>
      w1 ← Execute_enter t w;
      Some (with_executions (with_pool w1 (<[i := WExec t]> (pool w1)))
              (executions w1 ++ [t]))
  | _ => None
  end.

(** [task.Execute(ctx)] returns [err]. *)
Definition worker_return (i : nat) (err : error) (w : World)
  : option World :=
  match pool w !! i with
  | Some (WExec t) =>
      Some (with_pool w (<[i := worker_after w t err]> (pool w)))
  | _ => None
  end.

(** [return], and with it the deferred [s.wg.Done()]. *)
Definition worker_done (i : nat) (w : World) : option World :=
  match pool w !! i with
  | Some WQuit =>
      Some (with_pool (with_sched w (set_wg (sched w) (wg (sched w) - 1)))
              (<[i := WDone]> (pool w)))
  | _ => None
  end.

(** ** Stop *)

(** The closed channel wakes every goroutine parked on it. *)
Definition wake (p : worker_pc) : worker_pc :=
  match p with
  | WParked => WQuit
  | _ => p
  end.

(** [close(s.quit)]: closing a closed channel panics. *)
Definition close_quit (w : World) : World :=
  if quit (sched w) then with_panic w "close of closed channel"
  else with_pool (with_sched w (set_quit (sched w) true)) (wake <$> pool w).

(** [Stop], first statement: [close(s.quit)]; the caller then waits. *)
Definition Stop_close (w : World) : World :=
  let w1 := close_quit w in
  match panicked w1 with
  | Some _ => w1
  | None => with_stops w1 (S (stop_waiting w1)) (stop_returned w1)
  end.

(** [Stop], second statement: [s.wg.Wait()] returns when the counter is
    zero. *)
Definition Stop_wait (w : World) : option World :=
  match stop_waiting w with
  | O => None
  | S n =>
      if wg (sched w) =? 0 then Some (with_stops w n (S (stop_returned w)))
      else None
  end.

(** ** The goroutine of ScheduleWithDelay *)

Definition ctx_done (w : World) (c : Context) : bool :=
  match c with
  | Background => false
  | WithCancel id => bool_decide (id ∈ cancelled w)
  end.

(** When a timer or ticker started now with duration [d] is due. *)
Definition due_after (w : World) (d : Duration) : Time :=
  if d <=? 0 then now w else Z.min (now w + d) maxInt64.

(** [timer := time.NewTimer(delay)], and the goroutine reaches its
    [select]. *)
Definition delay_start (i : nat) (w : World) : option World :=
  match delayed w !! i with
  | Some (DNew t c d) =>
      Some (with_delayed w
              (<[i := DSelect t c (due_after w d) false]> (delayed w)))
  | _ => None
  end.

(** The runtime sends on [timer.C] once the timer is due. *)
Definition timer_fire (i : nat) (w : World) : option World :=
  match delayed w !! i with
  | Some (DSelect t c due false) =>
      if due <=? now w
      then Some (with_delayed w (<[i := DSelect t c due true]> (delayed w)))
      else None
  | _ => None
  end.

(** [case <-timer.C: s.SubmitTask(task)]. *)
Definition delay_timer (i : nat) (w : World) : option World :=
  match delayed w !! i with
  | Some (DSelect t c due true) =>
      Some (with_delayed (SubmitTask t w) (<[i := DDone false]> (delayed w)))
  | _ => None
  end.

(** [case <-ctx.Done(): timer.Stop(); return]. *)
Definition delay_ctx (i : nat) (w : World) : option World :=
  match delayed w !! i with
  | Some (DSelect t c due fired) =>
      if ctx_done w c
      then Some (with_delayed w (<[i := DDone true]> (delayed w)))
      else None
  | _ => None
  end.

(** ** The goroutine of ScheduleRecurring *)

(** [ticker := time.NewTicker(interval)] panics for an interval that is
    not positive. *)
Definition ticker_start (j : nat) (w : World) : option World :=
  match recurring w !! j with
  | Some (RNew t c every) =>
      if every <=? 0
      then Some (with_panic w "non-positive interval for NewTicker")
      else Some (with_recurring w
                   (<[j := RLoop t c every (due_after w every) false]>
                      (recurring w)))
  | _ => None
  end.

(** The runtime sends a tick once it is due; a tick that finds the channel
    full is dropped. *)
Definition ticker_tick (j : nat) (w : World) : option World :=
  match recurring w !! j with
  | Some (RLoop t c every next pending) =>
      if next <=? now w
      then Some (with_recurring w
                   (<[j := RLoop t c every (next + every) true]>
                      (recurring w)))
      else None
  | _ => None
  end.

(** [case <-ticker.C: s.SubmitTask(task)], and the loop goes on. *)
Definition recurring_tick (j : nat) (w : World) : option World :=
  match recurring w !! j with
  | Some (RLoop t c every next true) =>
      Some (with_recurring (SubmitTask t w)
              (<[j := RLoop t c every next false]> (recurring w)))
  | _ => None
  end.

(** [case <-ctx.Done(): return], with the deferred [ticker.Stop()]. *)
Definition recurring_ctx (j : nat) (w : World) : option World :=
  match recurring w !! j with
  | Some (RLoop t c every next pending) =>
      if ctx_done w c
      then Some (with_recurring w (<[j := RDone]> (recurring w)))
      else None
  | _ => None
  end.

(** [case <-s.quit: return], with the deferred [ticker.Stop()]. *)
Definition recurring_quit (j : nat) (w : World) : option World :=
  match recurring w !! j with
  | Some (RLoop t c every next pending) =>
      if quit (sched w)
      then Some (with_recurring w (<[j := RDone]> (recurring w)))
      else None
  | _ => None
  end.

(** ** The transition system *)

Inductive Label :=
(* calls of the scheduler's methods *)
| LStart
| LSubmitTask (t : Task)
| LSchedule (c : Context) (t : Task)
| LScheduleWithDelay (c : Context) (t : Task) (delay : Duration)
| LScheduleRecurring (c : Context) (t : Task) (every : Duration)
| LNewPeriodicTask (name : string) (every : Duration) (run : nat)
    (priority : Z)
| LCancel (name : string)
| LShouldRun (l : loc)
| LStopClose
| LStopReturn
(* the surroundings: a context is cancelled, time passes *)
| LCtxCancel (id : nat)
| LClock (d : Duration)
(* worker [i] *)
| LWSelectTask (i : nat)
| LWSelectQuit (i : nat)
| LWPark (i : nat)
| LWExecute (i : nat)
| LWReturn (i : nat) (err : error)
| LWDone (i : nat)
(* the goroutine of the [i]-th ScheduleWithDelay and its timer *)
| LDStart (i : nat)
| LTimerFire (i : nat)
| LDTimer (i : nat)
| LDCtx (i : nat)
(* the goroutine of the [j]-th ScheduleRecurring and its ticker *)
| LRStart (j : nat)
| LTickerTick (j : nat)
| LRTick (j : nat)
| LRCtx (j : nat)
| LRQuit (j : nat).

(** One action.  [None]: the action cannot happen now.  A program that has
    panicked does nothing more.  Where a [select] has several ready cases the
    runtime picks one at random: every ready case is a possible action. *)
Definition step (w : World) (a : Label) : option World :=
  match panicked w with
  | Some _ => None
  | None =>
      match a with
      | LStart => Some (Start w)
      | LSubmitTask t => Some (SubmitTask t w)
      | LSchedule c t => Some (fst (Schedule c t w))
      | LScheduleWithDelay c t d => Some (fst (ScheduleWithDelay c t d w))
      | LScheduleRecurring c t d => Some (fst (ScheduleRecurring c t d w))
      | LNewPeriodicTask n d f p => snd <$> NewPeriodicTask n d f p w
      | LCancel n => Some (fst (Cancel n w))
      | LShouldRun l => snd <$> ShouldRun l w
      | LStopClose => Some (Stop_close w)
      | LStopReturn => Stop_wait w
      | LCtxCancel id => Some (with_cancelled w (id :: cancelled w))
      | LClock d =>
          if 0 <=? d then Some (with_now w (now w + d)) else None
      | LWSelectTask i => worker_select_task i w
      | LWSelectQuit i => worker_select_quit i w
      | LWPark i => worker_park i w
      | LWExecute i => worker_execute i w
      | LWReturn i err => worker_return i err w
      | LWDone i => worker_done i w
      | LDStart i => delay_start i w
      | LTimerFire i => timer_fire i w
      | LDTimer i => delay_timer i w
      | LDCtx i => delay_ctx i w
      | LRStart j => ticker_start j w
      | LTickerTick j => ticker_tick j w
      | LRTick j => recurring_tick j w
      | LRCtx j => recurring_ctx j w
      | LRQuit j => recurring_quit j w
      end
  end.

Fixpoint run (w : World) (ls : list Label) : option World :=
  match ls with
  | [] => Some w
  | a :: ls' =>
      match step w a with
      | Some w' => run w' ls'
      | None => None
      end
  end.

(** The worlds a program can be in: those a run reaches from a new
    scheduler. *)
Inductive reachable (limit : Z) : World → Prop :=
| reach_new t0 n q w :
    NewScheduler limit t0 n q = Some w → reachable limit w
| reach_step w a w' :
    reachable limit w → step w a = Some w' → reachable limit w'.

(** ** GetFundingStatsTask.Execute ([task/task.go]) *)

Record GetFundingStatsTask := mkGetFundingStatsTask {
  FS_BaseTask : BaseTask;
  FS_Symbol : string;
  FS_Start : Z;
  FS_End : Z;
  FS_Limit : Z
}.

(** What [Execute] does to the outside: a call of the client (with the time
    range or without), a completed backoff sleep, a value sent on
    [ResultChan] (with data or with an error). *)
Inductive FSEvent :=
| ApiCall (attempt : Z) (ranged : bool)
| Sleep (d : Duration)
| Result (hasData : bool) (e : error).

(** [ctx.Err()] of a cancelled context. *)
Definition ctxErr : string := "context canceled".

Section StatsTask.

(** The result of converting a float64 beyond the int64 range, which Go
    leaves to the platform. *)
Variable conv_overflow : Z.

(** What the surroundings do: the error of the client's call at each
    attempt ([None]: success), whether [ctx.Done()] is ready at the top of
    each iteration, and whether it wins the [select] of the backoff. *)
Variable api : Z → error.
Variable ctxAtTop : Z → bool.
Variable ctxInSleep : Z → bool.

(** [time.Duration(math.Pow(2, float64(attempt)))]. *)
Definition pow2_duration (attempt : Z) : Duration :=
  if attempt <? 63 then 2 ^ attempt else conv_overflow.

Definition backoffDuration (t : GetFundingStatsTask) (attempt : Z)
  : Duration :=
  wrap64 (pow2_duration attempt
          * BackoffBase (BaseTask_RetryPolicy (FS_BaseTask t))).

(** The [for] loop from [attempt] on, [err] being the variable of that
    name.  [None]: out of fuel. *)
Fixpoint Execute_loop (t : GetFundingStatsTask) (fuel : nat)
  (attempt : Z) (err : error) : option (error * list FSEvent) :=
  if attempt <=? MaxRetries (BaseTask_RetryPolicy (FS_BaseTask t)) then
    match fuel with
    | O => None
    | S fuel' =>
        if ctxAtTop attempt
        then Some (Some ctxErr, [Result false (Some ctxErr)])
        else
          let call :=
            ApiCall attempt ((0 <? FS_Start t) || (0 <? FS_End t)) in
          match api attempt with
          | None => Some (None, [call; Result true None])
          | Some e =>
              if attempt
                 <? MaxRetries (BaseTask_RetryPolicy (FS_BaseTask t))
              then
                if ctxInSleep attempt
                then Some (Some ctxErr,
                           [call; Result false (Some ctxErr)])
                else
                  '(r, evs) ← Execute_loop t fuel' (attempt + 1) (Some e);
                  Some (r, call :: Sleep (backoffDuration t attempt)
                             :: evs)
              else
                '(r, evs) ← Execute_loop t fuel' (attempt + 1) (Some e);
                Some (r, call :: evs)
          end
    end
  else Some (err, [Result false err]).

Definition GetFundingStatsTask_Execute (t : GetFundingStatsTask)
  : option (error * list FSEvent) :=
  Execute_loop t
    (Z.to_nat (MaxRetries (BaseTask_RetryPolicy (FS_BaseTask t)) + 1))
    0 None.

End StatsTask.

(** The number of calls of the client, and the sleeps, in order. *)
Fixpoint calls (evs : list FSEvent) : nat :=
  match evs with
  | [] => 0%nat
  | ApiCall _ _ :: evs' => S (calls evs')
  | _ :: evs' => calls evs'
  end.

Fixpoint sleeps (evs : list FSEvent) : list Duration :=
  match evs with
  | [] => []
  | Sleep d :: evs' => d :: sleeps evs'
  | _ :: evs' => sleeps evs'
  end.

(** ** What [main] does with the scheduler ([main.go]) *)

(** The three periodic tasks [main] sets up for a currency, each created
    and submitted at once; [l] is the address of the first. *)
Definition main_tasks (currency : string) (l : nat) : list Label :=
  [ LNewPeriodicTask ("FundingStats_" +:+ currency +:+ "_Hourly")
      (1 * Hour) l 3;
    LSubmitTask (PeriodicRef l);
    LNewPeriodicTask ("FundingTicker_" +:+ currency) (1 * Hour) (S l) 3;
    LSubmitTask (PeriodicRef (S l));
    LNewPeriodicTask ("FundingBook_" +:+ currency) (1 * Minute)
      (S (S l)) 3;
    LSubmitTask (PeriodicRef (S (S l))) ].

(** Up to the wait for the signal: [scheduler.Start()] and the tasks of
    the two currencies. *)
Definition main_setup : list Label :=
  LStart :: main_tasks "fUSD" 0 ++ main_tasks "fUST" 3.

(** The context of [main] ([context.WithCancel(context.Background())]). *)
Definition main_ctx : nat := 0%nat.

(** After the signal: the explicit [scheduler.Stop()], which is the two
    actions [LStopClose] and [LStopReturn]; then [main] returns and its
    deferred calls run, last deferred first: [cancel()], then
    [scheduler.Stop()], of which only the first action matters here. *)
Definition main_explicit_stop : list Label := [LStopClose; LStopReturn].
Definition main_deferred : list Label := [LCtxCancel main_ctx; LStopClose].

(** ** Worlds and tasks of the examples *)

(** An allocation limit of the order of a 64-bit platform's. *)
Definition someLimit : Z := 2 ^ 44.

(** A task of another package, with the retry policy every constructor of
    [task/task.go] gives. *)
Definition someTask (name : string) (body : nat) : Task :=
  OtherTask
    {| Name := name; Priority := 1;
       BaseTask_RetryPolicy :=
         {| MaxRetries := 3; BackoffBase := 500 * Millisecond |} |}
    body.

(** A new scheduler at clock reading 0; for a size [make] refuses, the
    world that has panicked there. *)
Definition newWorld (n q : Z) : World :=
  match NewScheduler someLimit 0 n q with
  | Some w => w
  | None =>
      {| sched := {| workers := n; queueSize := q;
                     taskQueue := {| buf := []; cap := 0 |};
                     periodicTask := ∅; mu := false; wg := 0;
                     quit := false |};
         heap := []; now := 0; cancelled := []; pool := []; delayed := [];
         recurring := []; executions := []; accesses := [];
         stop_waiting := 0; stop_returned := 0;
         panicked := Some "makechan: size out of range" |}
  end.

(** The world a run from a new scheduler ends in, the run being possible. *)
Definition after (n q : Z) (ls : list Label) : option World :=
  run (newWorld n q) ls.

(** Workers that are not gone. *)
Definition is_alive (p : worker_pc) : bool :=
  match p with
  | WDone => false
  | _ => true
  end.

Fixpoint alive (p : list worker_pc) : nat :=
  match p with
  | [] => 0%nat
  | x :: p' => if is_alive x then S (alive p') else alive p'
  end.

(** ** Invariants, and more worlds of the examples *)

#[global] Instance Context_eq_dec : EqDecision Context.
Proof. solve_decision. Defined.
#[global] Instance Label_eq_dec : EqDecision Label.
Proof. solve_decision. Defined.

(** What a new periodic task is made of. *)
Definition newPeriodicTask (name : string) (every : Duration) (run : nat)
  (priority : Z) (t : Time) : PeriodicTask :=
  {| PT_BaseTask :=
       {| Name := name; Priority := priority;
          BaseTask_RetryPolicy :=
            {| MaxRetries := 3; BackoffBase := 500 * Millisecond |} |};
     interval := every; lastRun := t; runFunc := run; p_mu := false |}.

(** The wait group counts the workers that have not returned. *)
Definition wg_inv (w : World) : Prop :=
  wg (sched w) = Z.of_nat (alive (pool w)).

(** No lock is held between two actions. *)
Definition locks_free (w : World) : Prop :=
  mu (sched w) = false ∧ Forall (λ p, p_mu p = false) (heap w).

(** Every access logged so far was made with its lock held. *)
Definition guarded (w : World) : Prop :=
  Forall (λ a, acc_locked a = true) (accesses w).

(** A call of [Stop] that waits or has returned has closed the quit
    channel. *)
Definition stops_inv (w : World) : Prop :=
  (0 < stop_waiting w + stop_returned w)%nat → quit (sched w) = true.

(** Every worker goroutine has returned. *)
Definition gone (w : World) : Prop := Forall (λ x, x = WDone) (pool w).

(** The world a run from a new scheduler ends in (the new world itself if
    the run is not possible). *)
Definition world_after (n q : Z) (ls : list Label) : World :=
  default (newWorld n q) (after n q ls).

(** The run of [main]: the workers execute the six tasks and park; after
    the signal the explicit [Stop] closes the quit channel, the workers
    return, [Stop] returns, and the deferred calls run. *)
Definition main_run : list Label :=
  main_setup
  ++ flat_map (λ i, [LWSelectTask i; LWExecute i; LWReturn i None])
       [0; 1; 2; 3; 4; 0]%nat
  ++ [LWPark 0; LWPark 1; LWPark 2; LWPark 3; LWPark 4; LClock (2 * Hour);
      LStopClose;
      LWDone 0; LWDone 1; LWDone 2; LWDone 3; LWDone 4;
      LStopReturn]
  ++ main_deferred.

(** The calls of [close(s.quit)]. *)
Definition is_StopClose (a : Label) : bool :=
  match a with LStopClose => true | _ => false end.

(** A task of [task/task.go], with the policy its constructor gives. *)
Definition someStatsTask : GetFundingStatsTask :=
  {| FS_BaseTask :=
       {| Name := "GetFundingStats_fUSD_10"; Priority := 1;
          BaseTask_RetryPolicy :=
            {| MaxRetries := 3; BackoffBase := 500 * Millisecond |} |};
     FS_Symbol := "fUSD"; FS_Start := 0; FS_End := 0; FS_Limit := 10 |}.

(** ** More invariants and measures *)

(** The buffer never holds more than its capacity, which is the queue size
    given at construction. *)
Definition queue_inv (w : World) : Prop :=
  0 <= cap (taskQueue (sched w))
  ∧ Z.of_nat (length (buf (taskQueue (sched w)))) <= cap (taskQueue (sched w))
  ∧ cap (taskQueue (sched w)) = queueSize (sched w).

(** A worker that is about to return, or has returned, was told to by the
    closed quit channel. *)
Definition left_on_quit (q : bool) (p : worker_pc) : Prop :=
  p = WQuit ∨ p = WDone → q = true.




Definition is_Start (a : Label) : bool :=
  match a with LStart => true | _ => false end.

Definition count_labels (f : Label → bool) (ls : list Label) : nat :=
  length (filter (λ a, f a = true) ls).


(** Tasks submitted one after the other, as [main] does in its loop. *)
Definition SubmitAll (ts : list Task) (w : World) : World :=
  foldl (λ w t, SubmitTask t w) w ts.

(** Worker [i] serving tasks one after the other: it receives a task from
    the buffer, executes it, and [Execute] returns what [err] says. *)
Definition serve (i : nat) (err : Task → error) (ts : list Task)
  : list Label :=
  flat_map (λ t, [LWSelectTask i; LWExecute i; LWReturn i (err t)]) ts.

(** A task whose [Execute] can be entered: a pointer to a periodic task
    points to one. *)
Definition valid_task (w : World) (t : Task) : Prop :=
  match t with
  | PeriodicRef l => (l < length (heap w))%nat
  | OtherTask _ _ => True
  end.

(** What the [i]-th delayed goroutine may be, for a call made with delay
    [d] in a world whose timers would be due at [due0]: not started, waiting
    on a timer due no earlier and fired only once due, or gone. *)
Definition delay_on_time (due0 : Time) (d : Duration) (w : World) (i : nat)
  : Prop :=
  match delayed w !! i with
  | Some (DNew _ _ d') => d' = d
  | Some (DSelect _ _ due fired) =>
      due0 <= due ∧ (fired = true → due <= now w)
  | Some (DDone _) => True
  | None => False
  end.

(** Every registered name has a handle that exists, bears that name and
    has the retry policy of [NewPeriodicTask]. *)
Definition registry_inv (w : World) : Prop :=
  ∀ n l, periodicTask (sched w) !! n = Some l →
    ∃ p, heap w !! l = Some p
         ∧ Name (PT_BaseTask p) = n
         ∧ BaseTask_RetryPolicy (PT_BaseTask p)
           = {| MaxRetries := 3; BackoffBase := 500 * Millisecond |}.

(** The registrations of a name. *)
Definition registers (n : string) (a : Label) : bool :=
  match a with
  | LNewPeriodicTask n' _ _ _ => bool_decide (n' = n)
  | _ => false
  end.

(** No handle has run after now. *)
Definition lastRun_inv (w : World) : Prop :=
  Forall (λ p, lastRun p <= now w) (heap w).

(** The values sent on [ResultChan], in order. *)
Fixpoint results (evs : list FSEvent) : list (bool * error) :=
  match evs with
  | [] => []
  | Result d e :: evs' => (d, e) :: results evs'
  | _ :: evs' => results evs'
  end.

(** The time slept in all. *)
Definition total (ds : list Duration) : Z := foldr Z.add 0 ds.

(** What the [j]-th recurring goroutine may be, for a call whose first tick
    would be due at [due0]: not started, in its loop with the next tick due
    no earlier and a tick waiting only once that time has come, or gone. *)
Definition ticks_on_time (due0 : Time) (e : Duration) (w : World) (j : nat)
  : Prop :=
  match recurring w !! j with
  | Some (RNew _ _ e') => e' = e
  | Some (RLoop _ _ e' next pending) =>
      e' = e ∧ due0 <= next ∧ (pending = true → due0 <= now w)
  | Some RDone => True
  | None => False
  end.

(** ** The client's conversion of funding statistics
    ([api/fundingStat.go]) *)

Section Conversions.

(** [float64] values are moved around, never computed with, but for the
    conversion to an integer. *)
Variable float64 : Type.
Variable fzero : float64.
Variable toInt64 : float64 → Z.

(** What [encoding/json] decodes into an [interface{}]. *)
Unset Elimination Schemes.
Inductive Json :=
| JNull
| JBool (b : bool)
| JNumber (f : float64)
| JString (s : string)
| JArray (l : list Json)
| JObject (m : list (string * Json)).
Set Elimination Schemes.

Record FundingStats := mkFundingStats {
  MTS : Z;
  FRR : float64;
  AveragePeriod : float64;
  FundingAmount : float64;
  FundingAmountUsed : float64;
  FundingBelowThreshold : float64
}.

(** The zero value [make] fills the slice with. *)
Definition zeroFundingStats : FundingStats :=
  {| MTS := 0; FRR := fzero; AveragePeriod := fzero;
     FundingAmount := fzero; FundingAmountUsed := fzero;
     FundingBelowThreshold := fzero |}.

(** [j.(float64)]; [None]: the assertion panics. *)
Definition assertFloat (j : Json) : option float64 :=
  match j with
  | JNumber f => Some f
  | _ => None
  end.

(** [data[i].(float64)]. *)
Definition cell (data : list Json) (i : nat) : option float64 :=
  data !! i ≫= assertFloat.

(** The struct literal both functions build from a row. *)
Definition statsOfRow (data : list Json) : option FundingStats :=
  mts ← cell data 0;
  frr ← cell data 3;
  avg ← cell data 4;
  amount ← cell data 7;
  used ← cell data 8;
  below ← cell data 11;
  Some {| MTS := toInt64 mts; FRR := frr; AveragePeriod := avg;
          FundingAmount := amount; FundingAmountUsed := used;
          FundingBelowThreshold := below |}.

(** The loop of [GetFundingStatsWithContext]: a slice as long as the
    input, an entry set for every row of at least 12 cells. *)
Fixpoint GetFundingStatsWithContext_convert (rawData : list (list Json))
  : option (list FundingStats) :=
  match rawData with
  | [] => Some []
  | data :: rest =>
      s ← (if (12 <=? length data)%nat then statsOfRow data
           else Some zeroFundingStats);
      out ← GetFundingStatsWithContext_convert rest;
      Some (s :: out)
  end.

(** The loop of [GetFundingStatsWithTimeRangeWithContext]: an entry
    appended for every row of at least 12 cells. *)
Fixpoint GetFundingStatsWithTimeRangeWithContext_convert
  (rawData : list (list Json)) : option (list FundingStats) :=
  match rawData with
  | [] => Some []
  | data :: rest =>
      if (12 <=? length data)%nat
      then
        s ← statsOfRow data;
        out ← GetFundingStatsWithTimeRangeWithContext_convert rest;
        Some (s :: out)
      else GetFundingStatsWithTimeRangeWithContext_convert rest
  end.

(** The cells a row is read at. *)
Definition cells_read : list nat := [0; 3; 4; 7; 8; 11]%nat.

(** A row the conversion panics on: long enough to be read, with a cell
    that is read and is not a number. *)
Definition bad_row (data : list Json) : Prop :=
  (12 <= length data)%nat ∧ ∃ i, i ∈ cells_read ∧ cell data i = None.

End Conversions.

Arguments JNull {float64}.
Arguments JBool {float64} b.
Arguments JNumber {float64} f.
Arguments JString {float64} s.
Arguments JArray {float64} l.
Arguments JObject {float64} m.
Arguments MTS {float64} f.
Arguments statsOfRow {float64} toInt64 data.
Arguments cell {float64} data i.
Arguments bad_row {float64} data.
Arguments GetFundingStatsWithContext_convert {float64} fzero toInt64 rawData.
Arguments GetFundingStatsWithTimeRangeWithContext_convert {float64} toInt64
  rawData.

(** ** The client's conversion of the funding book ([api/book.go]) *)

Section BookConversions.

Variable float64 : Type.
Variable fzero : float64.
(** [int(f)] *)
Variable toInt : float64 → Z.

Record RawFundingBook := mkRawFundingBook {
  RFB_OfferID : Z;
  RFB_Period : Z;
  RFB_Rate : float64;
  RFB_Amount : float64
}.

Record FundingBook := mkFundingBook {
  FB_Rate : float64;
  FB_Period : Z;
  FB_Count : Z;
  FB_Amount : float64
}.

Definition zeroRawFundingBook : RawFundingBook :=
  {| RFB_OfferID := 0; RFB_Period := 0; RFB_Rate := fzero;
     RFB_Amount := fzero |}.

Definition zeroFundingBook : FundingBook :=
  {| FB_Rate := fzero; FB_Period := 0; FB_Count := 0; FB_Amount := fzero |}.

Definition rawBookOfRow (data : list (Json float64))
  : option RawFundingBook :=
  offerID ← cell data 0;
  period ← cell data 1;
  rate ← cell data 2;
  amount ← cell data 3;
  Some {| RFB_OfferID := toInt offerID; RFB_Period := toInt period;
          RFB_Rate := rate; RFB_Amount := amount |}.

Definition bookOfRow (data : list (Json float64)) : option FundingBook :=
  rate ← cell data 0;
  period ← cell data 1;
  count ← cell data 2;
  amount ← cell data 3;
  Some {| FB_Rate := rate; FB_Period := toInt period;
          FB_Count := toInt count; FB_Amount := amount |}.

(** The loop of [GetRawFundingBookWithContext]. *)
Fixpoint GetRawFundingBookWithContext_convert
  (rawData : list (list (Json float64))) : option (list RawFundingBook) :=
  match rawData with
  | [] => Some []
  | data :: rest =>
      b ← (if (4 <=? length data)%nat then rawBookOfRow data
           else Some zeroRawFundingBook);
      out ← GetRawFundingBookWithContext_convert rest;
      Some (b :: out)
  end.

(** The loop of [GetFundingBookWithContext]. *)
Fixpoint GetFundingBookWithContext_convert
  (rawData : list (list (Json float64))) : option (list FundingBook) :=
  match rawData with
  | [] => Some []
  | data :: rest =>
      b ← (if (4 <=? length data)%nat then bookOfRow data
           else Some zeroFundingBook);
      out ← GetFundingBookWithContext_convert rest;
      Some (b :: out)
  end.

(** A row the book conversions panic on. *)
Definition bad_book_row (data : list (Json float64)) : Prop :=
  (4 <= length data)%nat ∧ ∃ i, (i < 4)%nat ∧ cell data i = None.

End BookConversions.

Arguments rawBookOfRow {float64} toInt data.
Arguments bookOfRow {float64} toInt data.
Arguments bad_book_row {float64} data.
Arguments GetRawFundingBookWithContext_convert {float64} fzero toInt rawData.
Arguments GetFundingBookWithContext_convert {float64} fzero toInt rawData.

(** ** The constructors of the statistics task ([task/task.go]) *)

Definition NewGetFundingStatsTask (symbol : string) (limit : Z)
  (priority : Z) : GetFundingStatsTask :=
  {| FS_BaseTask :=
       {| Name := "GetFundingStats_" +:+ symbol +:+ "_" +:+ pretty limit;
          Priority := priority;
          BaseTask_RetryPolicy :=
            {| MaxRetries := 3; BackoffBase := 500 * Millisecond |} |};
     FS_Symbol := symbol; FS_Start := 0; FS_End := 0; FS_Limit := limit |}.

Definition NewGetFundingStatsTaskWithTimeRange (symbol : string)
  (start end_ : Z) (limit : Z) (priority : Z) : GetFundingStatsTask :=
  {| FS_BaseTask :=
       {| Name := "GetFundingStats_" +:+ symbol +:+ "_" +:+ pretty start
                  +:+ "_" +:+ pretty end_ +:+ "_" +:+ pretty limit;
          Priority := priority;
          BaseTask_RetryPolicy :=
            {| MaxRetries := 3; BackoffBase := 500 * Millisecond |} |};
     FS_Symbol := symbol; FS_Start := start; FS_End := end_;
     FS_Limit := limit |}.

(** ** The statistics jobs of [main.go] *)

(** An error of the database: [sql.ErrNoRows], or another. *)
Inductive dberr :=
| ErrNoRows
| ErrOther (msg : string).

Definition dberr_Error (e : dberr) : string :=
  match e with
  | ErrNoRows => "sql: no rows in result set"
  | ErrOther msg => msg
  end.

(** What a job did: the error it returns, what the task did inside it, and
    how many records it tried to save and did save. *)
Record Outcome := mkOutcome {
  ret : error;
  task_events : list FSEvent;
  save_attempts : nat;
  saved : nat
}.

Section MainStats.

Variable Stats : Type.
Variable mts : Stats → Z.
Variable conv_overflow : Z.

(** The surroundings: what [database.GetFundingStats(currency, 1)] returns,
    what the client and the context do during the task (as for
    [Execute_loop]), the records the client returns when it succeeds, and
    whether the [i]-th [SaveFundingStats] succeeds. *)
Variable dbGet : list Stats * option dberr.
Variable api : Z → error.
Variable top : Z → bool.
Variable slp : Z → bool.
Variable data : list Stats.
Variable save : nat → Stats → bool.

(** The loop over [result.Data]: a failed save is logged and skipped. *)
Fixpoint saveLoop (i : nat) (l : list Stats) (count : nat) : nat :=
  match l with
  | [] => count
  | stat :: l' =>
      if save i stat then saveLoop (S i) l' (S count)
      else saveLoop (S i) l' count
  end.

(** From [statsTask.Execute(ctx)] on; the two jobs differ in their
    messages only.  [None]: the receive from the channel blocks. *)
Definition runStatsTask (statsTask : GetFundingStatsTask)
  (execFailed getFailed : string) : option Outcome :=
  '(err, evs) ← GetFundingStatsTask_Execute conv_overflow api top slp
                  statsTask;
  match err with
  | Some e =>
      Some {| ret := Some (execFailed +:+ e); task_events := evs;
              save_attempts := 0; saved := 0 |}
  | None =>
      match results evs with
      | [] => None
      | (hasData, resultError) :: _ =>
          match resultError with
          | Some e =>
              Some {| ret := Some (getFailed +:+ e); task_events := evs;
                      save_attempts := 0; saved := 0 |}
          | None =>
              let stats := if hasData then data else [] in
              Some {| ret := None; task_events := evs;
                      save_attempts := length stats;
                      saved := saveLoop 0 stats 0 |}
          end
      end
  end.

Definition fetchInitialFundingStats (currency : string) : option Outcome :=
  let '(stats, err) := dbGet in
  match err with
  | Some (ErrOther msg) =>
      Some {| ret := Some ("failed to check database: "
                           +:+ dberr_Error (ErrOther msg));
              task_events := []; save_attempts := 0; saved := 0 |}
  | _ =>
      if (0 <? length stats)%nat
      then Some {| ret := None; task_events := []; save_attempts := 0;
                   saved := 0 |}
      else
        runStatsTask (NewGetFundingStatsTask currency 250 3)
          "failed to execute initial data collection task: "
          "failed to get initial data: "
  end.

Definition updateFundingStats (currency : string) : option Outcome :=
  let '(latestStats, err) := dbGet in
  match err with
  | Some e =>
      Some {| ret := Some ("failed to get latest data: " +:+ dberr_Error e);
              task_events := []; save_attempts := 0; saved := 0 |}
  | None =>
      let latestMts :=
        match latestStats with
        | [] => 0
        | s :: _ => mts s
        end in
      runStatsTask
        (NewGetFundingStatsTaskWithTimeRange currency
           (wrap64 (latestMts + 1)) 0 1 3)
        "failed to execute data retrieval task: "
        "failed to get data: "
  end.

End MainStats.

(** The calls of the client in the events of a task are all of one kind. *)
Definition all_ranged (r : bool) (evs : list FSEvent) : Prop :=
  Forall (λ e, match e with ApiCall _ r' => r' = r | _ => True end) evs.

(** * Properties *)

(** A conjunction of closed facts, each settled by evaluation. *)
Ltac conj_compute :=
  repeat (split; [vm_compute; reflexivity|]); vm_compute; reflexivity.

(** ** Construction *)

Lemma makechan_Some limit size :
  0 <= size <= limit →
  makechan limit size = Some {| buf := []; cap := size |}.
Proof.
  intros [H0 H1]. unfold makechan.
  destruct (size <? 0) eqn:E0; [apply Z.ltb_lt in E0; lia|].
  destruct (limit <? size) eqn:E1; [apply Z.ltb_lt in E1; lia|].
  reflexivity.
Qed.

Lemma makechan_None limit size :
  size < 0 ∨ limit < size → makechan limit size = None.
Proof.
  intros H. unfold makechan.
  destruct (size <? 0) eqn:E0; [reflexivity|].
  destruct (limit <? size) eqn:E1; [reflexivity|].
  apply Z.ltb_ge in E0, E1. lia.
Qed.

Lemma NewScheduler_Some limit t0 n q :
  0 <= q <= limit →
  NewScheduler limit t0 n q
  = Some {| sched := {| workers := n; queueSize := q;
                        taskQueue := {| buf := []; cap := q |};
                        periodicTask := ∅; mu := false; wg := 0;
                        quit := false |};
            heap := []; now := t0; cancelled := []; pool := [];
            delayed := []; recurring := []; executions := [];
            accesses := []; stop_waiting := 0; stop_returned := 0;
            panicked := None |}.
Proof.
  intros Hq. unfold NewScheduler. rewrite (makechan_Some _ _ Hq).
  reflexivity.
Qed.

(** A size [make] refuses: [NewScheduler] does not return. *)
Lemma NewScheduler_panics limit t0 n q :
  q < 0 ∨ limit < q → NewScheduler limit t0 n q = None.
Proof.
  intros Hq. unfold NewScheduler. rewrite (makechan_None _ _ Hq).
  reflexivity.
Qed.

(** C4, as the claim has it, fails: a scheduler with no worker and one with
    a queue of capacity zero are constructed like any other, and [Start] runs
    on them. *)
Lemma NewScheduler_accepts_invalid :
  (∃ w, NewScheduler someLimit 0 0 50 = Some w
        ∧ panicked (Start w) = None ∧ pool (Start w) = [])
  ∧ (∃ w, NewScheduler someLimit 0 (-2) 50 = Some w
          ∧ panicked (Start w) = None ∧ pool (Start w) = [])
  ∧ (∃ w, NewScheduler someLimit 0 5 0 = Some w
          ∧ panicked (Start w) = None
          ∧ pool (Start w) = [WLoop; WLoop; WLoop; WLoop; WLoop]).
Proof.
  repeat split; eexists; (split; [reflexivity|]); split; reflexivity.
Qed.

(** C4, amended: [NewScheduler] checks nothing and has no error result.
    For every worker count, positive or not, and every queue size from zero
    up to what can be allocated it returns a scheduler with these two values
    in its fields, an empty queue of that capacity, an empty registry, the
    quit channel open and no goroutine. *)
Theorem NewScheduler_no_validation (limit : Z) (t0 : Time) (n q : Z) :
  0 <= q <= limit →
  ∃ w, NewScheduler limit t0 n q = Some w
       ∧ workers (sched w) = n
       ∧ queueSize (sched w) = q
       ∧ taskQueue (sched w) = {| buf := []; cap := q |}
       ∧ periodicTask (sched w) = ∅
       ∧ quit (sched w) = false
       ∧ wg (sched w) = 0
       ∧ pool w = [] ∧ delayed w = [] ∧ recurring w = []
       ∧ panicked w = None.
Proof.
  intros Hq. rewrite (NewScheduler_Some _ _ _ _ Hq).
  eexists. split; [reflexivity|]. simpl. repeat split.
Qed.

Lemma NewScheduler_no_validation_witness :
  0 <= 0 <= someLimit
  ∧ ∃ w, NewScheduler someLimit 0 (-1) 0 = Some w
         ∧ workers (sched w) = -1
         ∧ queueSize (sched w) = 0
         ∧ taskQueue (sched w) = {| buf := []; cap := 0 |}
         ∧ periodicTask (sched w) = ∅
         ∧ quit (sched w) = false
         ∧ wg (sched w) = 0
         ∧ pool w = [] ∧ delayed w = [] ∧ recurring w = []
         ∧ panicked w = None.
Proof.
  split; [vm_compute; split; discriminate|].
  apply (NewScheduler_no_validation someLimit 0 (-1) 0).
  vm_compute; split; discriminate.
Defined.

(** ** Submission *)

Lemma find_parked_Some p r :
  find_parked p = Some r → p !! r = Some WParked.
Proof.
  revert r. induction p as [|x p IH]; intros r H; [discriminate|].
  destruct x; simpl in H;
    try (destruct (find_parked p) as [r'|] eqn:E; [|discriminate];
         simpl in H; injection H as <-; simpl; apply IH; reflexivity).
  injection H as <-. reflexivity.
Qed.

Lemma find_parked_None p :
  find_parked p = None → Forall (λ x, x ≠ WParked) p.
Proof.
  induction p as [|x p IH]; intros H; [constructor|].
  destruct x; simpl in H; try discriminate;
    (destruct (find_parked p) eqn:E; [discriminate|]);
    constructor; auto; discriminate.
Qed.

(** C2, as the claim has it, fails: with capacity 1 and no receiver the
    second of two submissions is dropped, and [Schedule] returns [nil] for it
    as it does for the first; the world after the second call is the world
    before it. *)
Lemma Schedule_full_returns_nil :
  let w := newWorld 1 1 in
  let r1 := Schedule Background (someTask "a" 0) w in
  let r2 := Schedule Background (someTask "b" 1) (fst r1) in
  panicked w = None
  ∧ buf (taskQueue (sched (fst r1))) = [someTask "a" 0]
  ∧ snd r1 = None
  ∧ snd r2 = None
  ∧ fst r2 = fst r1.
Proof. repeat split. Qed.

(** C2, amended: [SubmitTask] has no result and [Schedule] returns [nil]
    whatever happens, so a full queue is not reported to the caller.  With no
    worker parked in its [select], a submission never blocks: if the buffer
    has room the task is appended to it, and if the buffer is full the task
    is dropped and nothing changes.  With capacity 1 and an empty buffer, of
    two back-to-back submissions the first is enqueued and the second is
    dropped. *)
Theorem SubmitTask_drops_when_full (w : World) (c : Context)
  (task task2 : Task) :
  find_parked (pool w) = None →
  Schedule c task w = (SubmitTask task w, None)
  ∧ (Z.of_nat (length (buf (taskQueue (sched w)))) < cap (taskQueue (sched w))
     → SubmitTask task w
       = set_buf w (buf (taskQueue (sched w)) ++ [task]))
  ∧ (cap (taskQueue (sched w)) <= Z.of_nat (length (buf (taskQueue (sched w))))
     → SubmitTask task w = w)
  ∧ (cap (taskQueue (sched w)) = 1 → buf (taskQueue (sched w)) = []
     → buf (taskQueue (sched (SubmitTask task w))) = [task]
       ∧ SubmitTask task2 (SubmitTask task w) = SubmitTask task w
       ∧ snd (Schedule c task2 (fst (Schedule c task w))) = None).
Proof.
  intros Hp. split; [reflexivity|].
  unfold SubmitTask, chansend_nb. rewrite Hp.
  split; [|split].
  - intros H. apply Z.ltb_lt in H. rewrite H. reflexivity.
  - intros H. apply Z.ltb_ge in H. rewrite H. reflexivity.
  - intros Hc Hb. rewrite Hc, Hb. simpl. split; [reflexivity|].
    rewrite Hp. simpl. split; reflexivity.
Qed.

Lemma SubmitTask_drops_when_full_witness :
  let w := newWorld 1 1 in
  find_parked (pool w) = None
  ∧ buf (taskQueue (sched (SubmitTask (someTask "a" 0) w)))
    = [someTask "a" 0]
  ∧ SubmitTask (someTask "b" 1) (SubmitTask (someTask "a" 0) w)
    = SubmitTask (someTask "a" 0) w.
Proof.
  split; [reflexivity|].
  destruct (SubmitTask_drops_when_full (newWorld 1 1) Background
              (someTask "a" 0) (someTask "b" 1) eq_refl)
    as (_ & _ & _ & H).
  destruct (H eq_refl eq_refl) as (H1 & H2 & _).
  split; [exact H1 | exact H2].
Defined.

(** A parked worker is handed the task, whatever the buffer. *)
Lemma SubmitTask_handoff (w : World) (task : Task) (r : nat) :
  find_parked (pool w) = Some r →
  pool w !! r = Some WParked
  ∧ SubmitTask task w = with_pool w (<[r := WRecvd task]> (pool w)).
Proof.
  intros H. split; [apply find_parked_Some, H|].
  unfold SubmitTask, chansend_nb. rewrite H. reflexivity.
Qed.

(** ** Cancel *)

(** C3, as the claim has it, fails: after [Cancel] the name is still in
    the registry under the same handle, and an execution of the task under
    that name begins afterwards. *)
Lemma Cancel_leaves_registered :
  ∃ w1 w2 w3,
    after 1 1 [LNewPeriodicTask "job" (1 * Hour) 0 3] = Some w1
    ∧ periodicTask (sched w1) !! "job" = Some 0%nat
    ∧ Cancel "job" w1 = (w2, None)
    ∧ periodicTask (sched w2) !! "job" = Some 0%nat
    ∧ run w2 [LStart; LSubmitTask (PeriodicRef 0); LWSelectTask 0;
              LWExecute 0] = Some w3
    ∧ executions w3 = [PeriodicRef 0]
    ∧ GetName w3 (PeriodicRef 0) = "job".
Proof.
  eexists _, _, _.
  split; [vm_compute; reflexivity|].
  split; [vm_compute; reflexivity|].
  split; [reflexivity|].
  split; [vm_compute; reflexivity|].
  split; [vm_compute; reflexivity|].
  split; vm_compute; reflexivity.
Qed.

(** C3, amended: [Cancel] returns [nil] and does nothing else.  The
    registry, the queue and every goroutine are as before: the world after
    the call is the world before it, so every name keeps its handle and
    whatever could happen before the call can happen after it. *)
Theorem Cancel_does_nothing (name : string) (w : World) :
  snd (Cancel name w) = None
  ∧ fst (Cancel name w) = w
  ∧ (∀ n, periodicTask (sched (fst (Cancel name w))) !! n
          = periodicTask (sched w) !! n)
  ∧ (∀ a, step (fst (Cancel name w)) a = step w a)
  ∧ step w (LCancel name) = match panicked w with
                            | Some _ => None
                            | None => Some w
                            end.
Proof.
  repeat split.
Qed.

(** ** Locked sections, made explicit *)

Lemma set_p_mu_lastRun p t :
  p_mu p = false →
  set_p_mu (set_lastRun (set_p_mu p true) t) false = set_lastRun p t.
Proof. destruct p; simpl; intros ->; reflexivity. Qed.

Lemma set_p_mu_restore p :
  p_mu p = false → set_p_mu (set_p_mu p true) false = p.
Proof. destruct p; simpl; intros ->; reflexivity. Qed.

(** [PeriodicTask.Execute] up to the call of [runFunc] succeeds on a free
    lock, writes the clock reading into [lastRun] with the lock held, and
    leaves the lock free. *)
Lemma PeriodicTask_Execute_enter_Some l w p :
  heap w !! l = Some p → p_mu p = false →
  PeriodicTask_Execute_enter l w
  = Some (with_accesses
            (with_heap w (<[l := set_lastRun p (now w)]> (heap w)))
            (accesses w ++ [mkAccess (LastRunOf l) Write true])).
Proof.
  intros Hl Hmu. pose proof (lookup_lt_Some _ _ _ Hl) as Hlt.
  unfold PeriodicTask_Execute_enter, p_Lock. rewrite Hl. simpl.
  rewrite Hmu. simpl.
  unfold store_lastRun. simpl. rewrite list_lookup_insert_eq by exact Hlt.
  simpl. unfold p_Unlock. simpl.
  rewrite list_lookup_insert_eq by (rewrite length_insert; exact Hlt).
  simpl. rewrite !list_insert_insert_eq.
  rewrite set_p_mu_lastRun by exact Hmu. reflexivity.
Qed.

Lemma PeriodicTask_Execute_enter_inv l w w' :
  PeriodicTask_Execute_enter l w = Some w' →
  ∃ p, heap w !! l = Some p ∧ p_mu p = false
       ∧ w' = with_accesses
                (with_heap w (<[l := set_lastRun p (now w)]> (heap w)))
                (accesses w ++ [mkAccess (LastRunOf l) Write true]).
Proof.
  intros H. destruct (heap w !! l) as [p|] eqn:Hl.
  - destruct (p_mu p) eqn:Hmu.
    + unfold PeriodicTask_Execute_enter, p_Lock in H.
      rewrite Hl in H. simpl in H. rewrite Hmu in H. discriminate.
    + rewrite (PeriodicTask_Execute_enter_Some _ _ _ Hl Hmu) in H.
      injection H as <-. eauto.
  - unfold PeriodicTask_Execute_enter, p_Lock in H.
    rewrite Hl in H. discriminate.
Qed.

Lemma ShouldRun_Some l w p :
  heap w !! l = Some p → p_mu p = false →
  ShouldRun l w
  = Some (interval p <=? sat64 (now w - lastRun p),
          with_accesses w
            (accesses w ++ [mkAccess (LastRunOf l) Read true])).
Proof.
  intros Hl Hmu. pose proof (lookup_lt_Some _ _ _ Hl) as Hlt.
  unfold ShouldRun, p_Lock. rewrite Hl. simpl. rewrite Hmu. simpl.
  unfold load_lastRun. simpl. rewrite list_lookup_insert_eq by exact Hlt.
  simpl. rewrite list_lookup_insert_eq by exact Hlt. simpl.
  unfold p_Unlock. simpl. rewrite list_lookup_insert_eq by exact Hlt.
  simpl. rewrite list_insert_insert_eq.
  rewrite set_p_mu_restore by exact Hmu.
  rewrite (list_insert_id (heap w) l p Hl).
  unfold time_Since, time_Now. simpl. destruct w; reflexivity.
Qed.

Lemma ShouldRun_inv l w r w' :
  ShouldRun l w = Some (r, w') →
  ∃ p, heap w !! l = Some p ∧ p_mu p = false
       ∧ w' = with_accesses w
                (accesses w ++ [mkAccess (LastRunOf l) Read true]).
Proof.
  intros H. destruct (heap w !! l) as [p|] eqn:Hl.
  - destruct (p_mu p) eqn:Hmu.
    + unfold ShouldRun, p_Lock in H.
      rewrite Hl in H. simpl in H. rewrite Hmu in H. discriminate.
    + rewrite (ShouldRun_Some _ _ _ Hl Hmu) in H.
      injection H as _ <-. eauto.
  - unfold ShouldRun, p_Lock in H. rewrite Hl in H. discriminate.
Qed.

Lemma NewPeriodicTask_Some name every run priority w :
  mu (sched w) = false →
  NewPeriodicTask name every run priority w
  = Some (length (heap w),
          with_accesses
            (with_sched
               (with_heap w
                  (heap w ++ [newPeriodicTask name every run priority
                                (now w)]))
               (set_periodicTask (sched w)
                  (<[name := length (heap w)]> (periodicTask (sched w)))))
            (accesses w ++ [mkAccess Registry Write true])).
Proof.
  intros Hmu. destruct w as [s]; destruct s; simpl in Hmu; subst.
  reflexivity.
Qed.

Lemma NewPeriodicTask_inv name every run priority w l w' :
  NewPeriodicTask name every run priority w = Some (l, w') →
  mu (sched w) = false
  ∧ l = length (heap w)
  ∧ w' = with_accesses
           (with_sched
              (with_heap w
                 (heap w ++ [newPeriodicTask name every run priority
                               (now w)]))
              (set_periodicTask (sched w)
                 (<[name := length (heap w)]> (periodicTask (sched w)))))
           (accesses w ++ [mkAccess Registry Write true]).
Proof.
  intros H. destruct (mu (sched w)) eqn:Hmu.
  - unfold NewPeriodicTask, mu_Lock in H. simpl in H. rewrite Hmu in H.
    discriminate.
  - rewrite (NewPeriodicTask_Some _ _ _ _ _ Hmu) in H.
    injection H as <- <-. auto.
Qed.

(** ** Taking a step apart *)

Lemma Execute_enter_inv t w w1 :
  Execute_enter t w = Some w1 →
  (∃ b body, t = OtherTask b body ∧ w1 = w)
  ∨ (∃ l p, t = PeriodicRef l ∧ heap w !! l = Some p ∧ p_mu p = false
            ∧ w1 = with_accesses
                     (with_heap w (<[l := set_lastRun p (now w)]> (heap w)))
                     (accesses w ++ [mkAccess (LastRunOf l) Write true])).
Proof.
  destruct t as [l|b body]; simpl; intros H.
  - right. apply PeriodicTask_Execute_enter_inv in H.
    destruct H as (p & ? & ? & ?). eauto 6.
  - left. injection H as <-. eauto.
Qed.

Lemma worker_after_WLoop w t err : worker_after w t err = WLoop.
Proof.
  unfold worker_after. destruct err; [|reflexivity].
  destruct (0 <? _); reflexivity.
Qed.

Lemma Stop_close_cases w :
  panicked w = None →
  (quit (sched w) = true
   ∧ Stop_close w = with_panic w "close of closed channel")
  ∨ (quit (sched w) = false
     ∧ Stop_close w
       = with_stops
           (with_pool (with_sched w (set_quit (sched w) true))
              (wake <$> pool w))
           (S (stop_waiting w)) (stop_returned w)).
Proof.
  intros Hp. unfold Stop_close, close_quit.
  destruct (quit (sched w)); [left | right]; split; try reflexivity.
  simpl. rewrite Hp. reflexivity.
Qed.

Ltac step_label H :=
  unfold step in H;
  lazymatch type of H with
  | context [panicked ?w] =>
      let E := fresh "Hpanic" in
      destruct (panicked w) eqn:E; [discriminate H|]
  end;
  lazymatch type of H with
  | match ?a with LStart => _ | _ => _ end = _ => destruct a
  | _ => idtac
  end;
  simpl in H.

Ltac step_body H :=
  unfold Stop_wait, worker_select_task, worker_select_quit, worker_park,
    worker_execute, worker_return, worker_done, delay_start, timer_fire,
    delay_timer, delay_ctx, ticker_start, ticker_tick, recurring_tick,
    recurring_ctx, recurring_quit in H;
  repeat
    lazymatch type of H with
    | context [NewPeriodicTask ?n ?d ?f ?p ?w] =>
        let E := fresh "E" in
        destruct (NewPeriodicTask n d f p w) as [[? ?]|] eqn:E;
        [apply NewPeriodicTask_inv in E; destruct E as (? & ? & ?)|];
        simpl in H
    | context [ShouldRun ?l ?w] =>
        let E := fresh "E" in
        destruct (ShouldRun l w) as [[? ?]|] eqn:E;
        [apply ShouldRun_inv in E; destruct E as (? & ? & ? & ?)|];
        simpl in H
    | context [Execute_enter ?t ?w] =>
        let E := fresh "E" in
        destruct (Execute_enter t w) eqn:E;
        [apply Execute_enter_inv in E;
         destruct E as [(? & ? & ? & ?)|(? & ? & ? & ? & ? & ?)]|];
        simpl in H
    | context [match ?x with _ => _ end] =>
        let E := fresh "E" in destruct x eqn:E; simpl in H
    end;
  try discriminate H;
  try (injection H as H);
  try rewrite worker_after_WLoop in H;
  try lazymatch type of H with
      | context [Stop_close ?w] =>
          let E := fresh "Hquit" in
          let E' := fresh "Hclose" in
          destruct (Stop_close_cases w ltac:(assumption)) as [[E E']|[E E']];
          rewrite E' in H
      end.

Ltac step_cases H := step_label H; step_body H.

(** ** What a submission leaves alone *)

Lemma alive_insert (l : list worker_pc) (i : nat) (x y : worker_pc) :
  l !! i = Some x → is_alive x = is_alive y →
  alive (<[i := y]> l) = alive l.
Proof.
  revert i. induction l as [|z l IH]; intros i Hl Hxy; [discriminate|].
  destruct i as [|i]; simpl in *.
  - injection Hl as ->. rewrite Hxy. reflexivity.
  - rewrite (IH i Hl Hxy). reflexivity.
Qed.

Lemma alive_insert_done (l : list worker_pc) (i : nat) (x : worker_pc) :
  l !! i = Some x → is_alive x = true →
  alive l = S (alive (<[i := WDone]> l)).
Proof.
  revert i. induction l as [|z l IH]; intros i Hl Hx; [discriminate|].
  destruct i as [|i]; simpl in *.
  - injection Hl as ->. rewrite Hx. reflexivity.
  - rewrite (IH i Hl Hx). destruct (is_alive z); reflexivity.
Qed.

Lemma alive_app (l1 l2 : list worker_pc) :
  alive (l1 ++ l2) = (alive l1 + alive l2)%nat.
Proof.
  induction l1 as [|z l1 IH]; [reflexivity|]. simpl. rewrite IH.
  destruct (is_alive z); reflexivity.
Qed.

Lemma alive_replicate (n : nat) : alive (replicate n WLoop) = n.
Proof. induction n as [|n IH]; [reflexivity|]. simpl. rewrite IH. reflexivity. Qed.

Lemma alive_wake (l : list worker_pc) : alive (wake <$> l) = alive l.
Proof.
  induction l as [|z l IH]; [reflexivity|].
  rewrite fmap_cons. simpl. rewrite IH. destruct z; reflexivity.
Qed.

Lemma alive_0 (l : list worker_pc) :
  alive l = 0%nat ↔ Forall (λ x, x = WDone) l.
Proof.
  induction l as [|z l IH]; simpl.
  - split; [constructor | reflexivity].
  - destruct z; simpl; split; intros H; try discriminate;
      try (inversion H; discriminate).
    + constructor; [reflexivity | apply IH, H].
    + inversion H; subst. apply IH. assumption.
Qed.

Lemma SubmitTask_frame (t : Task) (w : World) :
  wg (sched (SubmitTask t w)) = wg (sched w)
  ∧ quit (sched (SubmitTask t w)) = quit (sched w)
  ∧ mu (sched (SubmitTask t w)) = mu (sched w)
  ∧ periodicTask (sched (SubmitTask t w)) = periodicTask (sched w)
  ∧ cap (taskQueue (sched (SubmitTask t w))) = cap (taskQueue (sched w))
  ∧ heap (SubmitTask t w) = heap w
  ∧ now (SubmitTask t w) = now w
  ∧ cancelled (SubmitTask t w) = cancelled w
  ∧ delayed (SubmitTask t w) = delayed w
  ∧ recurring (SubmitTask t w) = recurring w
  ∧ executions (SubmitTask t w) = executions w
  ∧ accesses (SubmitTask t w) = accesses w
  ∧ stop_waiting (SubmitTask t w) = stop_waiting w
  ∧ stop_returned (SubmitTask t w) = stop_returned w
  ∧ panicked (SubmitTask t w) = panicked w.
Proof.
  unfold SubmitTask, chansend_nb.
  destruct (find_parked (pool w)); [repeat split|].
  destruct (_ <? _); repeat split.
Qed.

Lemma SubmitTask_alive (t : Task) (w : World) :
  alive (pool (SubmitTask t w)) = alive (pool w).
Proof.
  unfold SubmitTask, chansend_nb.
  destruct (find_parked (pool w)) as [r|] eqn:E.
  - simpl. apply (alive_insert _ _ WParked); [|reflexivity].
    apply find_parked_Some, E.
  - destruct (_ <? _); reflexivity.
Qed.

(** ** The wait group counts the workers that are not gone *)

Lemma wg_inv_step w a w' : wg_inv w → step w a = Some w' → wg_inv w'.
Proof.
  unfold wg_inv. intros Hinv H. step_cases H; subst; simpl;
    rewrite ?(proj1 (SubmitTask_frame _ _)), ?SubmitTask_alive;
    try assumption.
  all: try (erewrite alive_insert by (eassumption || reflexivity);
            assumption).
  - rewrite alive_app, alive_replicate. lia.
  - rewrite alive_wake. assumption.
  - rewrite (alive_insert_done _ _ _ E eq_refl) in Hinv. lia.
Qed.

Lemma NewScheduler_inv limit t0 n q w :
  NewScheduler limit t0 n q = Some w →
  wg (sched w) = 0 ∧ mu (sched w) = false ∧ quit (sched w) = false
  ∧ heap w = [] ∧ pool w = [] ∧ delayed w = [] ∧ recurring w = []
  ∧ executions w = [] ∧ accesses w = [] ∧ panicked w = None
  ∧ stop_waiting w = 0%nat ∧ stop_returned w = 0%nat.
Proof.
  unfold NewScheduler. destruct (makechan limit q); simpl; [|discriminate].
  intros H. injection H as <-. simpl. repeat split.
Qed.

Lemma wg_inv_reachable limit w : reachable limit w → wg_inv w.
Proof.
  induction 1 as [t0 n q w H|w a w' _ IH H].
  - apply NewScheduler_inv in H. unfold wg_inv.
    destruct H as (-> & _ & _ & _ & -> & _). reflexivity.
  - eapply wg_inv_step; eassumption.
Qed.

(** ** Locks are free between actions, and every logged access was made
    under its lock *)

Lemma Forall_insert_heap (P : PeriodicTask → Prop) h (l : nat) p :
  Forall P h → P p → Forall P (<[l := p]> h).
Proof.
  intros Hh Hp. apply Forall_lookup. intros i x Hi.
  destruct (decide (l = i)) as [->|Hne].
  - apply list_lookup_insert_Some in Hi.
    destruct Hi as [(_ & <- & _)|(? & _)]; [assumption|congruence].
  - rewrite list_lookup_insert_ne in Hi by exact Hne.
    eapply Forall_lookup in Hh; eassumption.
Qed.

Lemma locks_guarded_step w a w' :
  locks_free w ∧ guarded w → step w a = Some w' →
  locks_free w' ∧ guarded w'.
Proof.
  unfold locks_free, guarded. intros [[Hmu Hh] Hg] H.
  step_cases H; subst; simpl;
    rewrite ?(proj1 (proj2 (proj2 (SubmitTask_frame _ _))));
    repeat match goal with
           | |- context [heap (SubmitTask ?t ?w)] =>
               replace (heap (SubmitTask t w)) with (heap w)
                 by (symmetry; apply SubmitTask_frame)
           | |- context [accesses (SubmitTask ?t ?w)] =>
               replace (accesses (SubmitTask t w)) with (accesses w)
                 by (symmetry; apply SubmitTask_frame)
           end;
    try (split; [split|]; assumption).
  - split; [split|]; [assumption| |].
    + apply Forall_app. split; [assumption|]. repeat constructor.
    + apply Forall_app. split; [assumption|]. repeat constructor.
  - split; [split|]; [assumption|assumption|].
    apply Forall_app. split; [assumption|]. repeat constructor.
  - split; [split|]; [assumption| |].
    + apply Forall_insert_heap; [assumption|]. simpl.
      eapply Forall_lookup in Hh; [|eassumption]. exact Hh.
    + apply Forall_app. split; [assumption|]. repeat constructor.
Qed.

Lemma locks_guarded_reachable limit w :
  reachable limit w → locks_free w ∧ guarded w.
Proof.
  induction 1 as [t0 n q w H|w a w' _ IH H].
  - apply NewScheduler_inv in H.
    destruct H as (_ & Hmu & _ & Hh & _ & _ & _ & _ & Ha & _).
    unfold locks_free, guarded. rewrite Hmu, Hh, Ha.
    repeat split; constructor.
  - eapply locks_guarded_step; eassumption.
Qed.

(** ** A closed quit channel stays closed; a program that has not panicked
    had not panicked before *)

Lemma quit_step w a w' :
  step w a = Some w' → quit (sched w) = true → quit (sched w') = true.
Proof.
  intros H Hq. step_cases H; subst; simpl;
    rewrite ?(proj1 (proj2 (SubmitTask_frame _ _))); try assumption;
    try reflexivity; try congruence.
Qed.

Lemma quit_run ls : ∀ w w',
  run w ls = Some w' → quit (sched w) = true → quit (sched w') = true.
Proof.
  induction ls as [|a ls IH]; simpl; intros w w' H Hq.
  - injection H as <-. assumption.
  - destruct (step w a) as [w1|] eqn:E; [|discriminate].
    eapply IH; [eassumption|]. eapply quit_step; eassumption.
Qed.

Lemma run_app ls1 : ∀ ls2 w w',
  run w (ls1 ++ ls2) = Some w' ↔
  ∃ w1, run w ls1 = Some w1 ∧ run w1 ls2 = Some w'.
Proof.
  induction ls1 as [|a ls1 IH]; simpl; intros ls2 w w'.
  - split; [eauto|]. intros (w1 & H & ?). injection H as <-. assumption.
  - destruct (step w a) as [w1|]; [apply IH|].
    split; [discriminate|]. intros (? & ? & _). discriminate.
Qed.

Lemma reachable_run limit ls : ∀ w w',
  reachable limit w → run w ls = Some w' → reachable limit w'.
Proof.
  induction ls as [|a ls IH]; simpl; intros w w' Hr H.
  - injection H as <-. assumption.
  - destruct (step w a) as [w1|] eqn:E; [|discriminate].
    eapply IH; [|eassumption]. eapply reach_step; eassumption.
Qed.

(** ** Goroutines that are gone stay gone *)





(** ** Stop *)

Lemma stops_inv_step w a w' : stops_inv w → step w a = Some w' → stops_inv w'.
Proof.
  unfold stops_inv. intros Hinv H. step_cases H; subst; simpl;
    rewrite ?(proj1 (proj2 (SubmitTask_frame _ _)));
    repeat match goal with
           | |- context [stop_waiting (SubmitTask ?t ?w)] =>
               replace (stop_waiting (SubmitTask t w)) with (stop_waiting w)
                 by (symmetry; apply SubmitTask_frame)
           | |- context [stop_returned (SubmitTask ?t ?w)] =>
               replace (stop_returned (SubmitTask t w))
                 with (stop_returned w)
                 by (symmetry; apply SubmitTask_frame)
           end;
    try assumption; try reflexivity; try (intros Hs; specialize (Hinv Hs); congruence).
  intros _. apply Hinv. lia.
Qed.

Lemma stops_inv_reachable limit w : reachable limit w → stops_inv w.
Proof.
  induction 1 as [t0 n q w H|w a w' _ IH H].
  - apply NewScheduler_inv in H. unfold stops_inv.
    destruct H as (_ & _ & _ & _ & _ & _ & _ & _ & _ & _ & -> & ->).
    simpl. lia.
  - eapply stops_inv_step; eassumption.
Qed.

Lemma gone_lookup w i x : gone w → pool w !! i = Some x → x = WDone.
Proof. intros Hg Hi. eapply Forall_lookup in Hg; eassumption. Qed.

Lemma gone_find_parked w : gone w → find_parked (pool w) = None.
Proof.
  unfold gone. induction (pool w) as [|x p IH]; [reflexivity|].
  intros H. inversion H; subst. simpl. rewrite IH by assumption.
  reflexivity.
Qed.

Lemma SubmitTask_gone t w : gone w → pool (SubmitTask t w) = pool w.
Proof.
  intros Hg. unfold SubmitTask, chansend_nb.
  rewrite (gone_find_parked _ Hg). destruct (_ <? _); reflexivity.
Qed.

(** With every worker gone, nothing but a new [Start] brings one back, and
    no execution begins. *)
Lemma gone_step w a w' :
  gone w → a ≠ LStart → step w a = Some w' →
  gone w' ∧ executions w' = executions w.
Proof.
  intros Hg Ha H. unfold gone.
  step_cases H; subst; simpl;
    try (rewrite SubmitTask_gone by assumption);
    repeat match goal with
           | |- context [executions (SubmitTask ?t ?w)] =>
               replace (executions (SubmitTask t w)) with (executions w)
                 by (symmetry; apply SubmitTask_frame)
           end;
    try (split; [exact Hg | reflexivity]);
    try congruence;
    try (match goal with
         | E : pool _ !! _ = Some _ |- _ =>
             apply (gone_lookup _ _ _ Hg) in E; discriminate
         end).
  split; [|reflexivity]. apply Forall_fmap.
  eapply Forall_impl; [exact Hg|]. simpl. intros x ->. reflexivity.
Qed.

Lemma gone_run ls : ∀ w w',
  gone w → LStart ∉ ls → run w ls = Some w' →
  gone w' ∧ executions w' = executions w.
Proof.
  induction ls as [|a ls IH]; simpl; intros w w' Hg Hls H.
  - injection H as <-. auto.
  - destruct (step w a) as [w1|] eqn:E; [|discriminate].
    apply not_elem_of_cons in Hls. destruct Hls as [Ha Hls].
    destruct (gone_step _ _ _ Hg (not_eq_sym Ha) E) as [Hg1 He1].
    destruct (IH _ _ Hg1 Hls H) as [Hg' He']. split; [assumption|].
    congruence.
Qed.

Lemma reachable_newWorld n q :
  0 <= q <= someLimit → reachable someLimit (newWorld n q).
Proof.
  intros Hq. apply (reach_new someLimit 0 n q). unfold newWorld.
  rewrite (NewScheduler_Some _ _ _ _ Hq). reflexivity.
Qed.

Lemma reachable_world_after n q ls :
  0 <= q <= someLimit → is_Some (after n q ls) →
  reachable someLimit (world_after n q ls).
Proof.
  intros Hq [w H]. unfold world_after. rewrite H. simpl.
  eapply reachable_run; [apply reachable_newWorld, Hq | exact H].
Qed.

(** C5, as the claim has it, fails: [Stop] has returned while the goroutine
    of a [ScheduleWithDelay] and the one of a [ScheduleRecurring] are still
    in their [select]; an hour later the first still submits its task. *)
Lemma Stop_returns_with_timers_alive :
  ∃ w w2,
    after 1 1 [LStart;
               LScheduleWithDelay Background (someTask "late" 0) (1 * Hour);
               LDStart 0;
               LScheduleRecurring Background (someTask "tick" 1) (1 * Hour);
               LRStart 0;
               LStopClose; LWSelectQuit 0; LWDone 0; LStopReturn] = Some w
    ∧ stop_returned w = 1%nat
    ∧ pool w = [WDone]
    ∧ delayed w
      = [DSelect (someTask "late" 0) Background (1 * Hour) false]
    ∧ recurring w
      = [RLoop (someTask "tick" 1) Background (1 * Hour) (1 * Hour) false]
    ∧ run w [LClock (1 * Hour); LTimerFire 0; LDTimer 0] = Some w2
    ∧ buf (taskQueue (sched w2)) = [someTask "late" 0].
Proof.
  eexists _, _.
  split; [vm_compute; reflexivity|].
  conj_compute.
Qed.

(** C5, amended: [Stop] closes the quit channel and returns only when every
    worker goroutine has returned.  The tasks then still in the queue stay
    there, and no execution begins afterwards unless [Start] is called again.
    The goroutines of [ScheduleWithDelay] and [ScheduleRecurring] are not
    waited for: the return of [Stop] leaves them as they are. *)
Theorem Stop_waits_for_workers_only (limit : Z) (w w' : World) :
  reachable limit w → step w LStopReturn = Some w' →
  gone w'
  ∧ quit (sched w') = true
  ∧ stop_returned w' = S (stop_returned w)
  ∧ taskQueue (sched w') = taskQueue (sched w)
  ∧ delayed w' = delayed w
  ∧ recurring w' = recurring w
  ∧ ∀ ls w'', LStart ∉ ls → run w' ls = Some w'' →
      gone w'' ∧ executions w'' = executions w'.
Proof.
  intros Hr H.
  pose proof (wg_inv_reachable _ _ Hr) as Hwg.
  pose proof (stops_inv_reachable _ _ Hr) as Hst.
  unfold wg_inv in Hwg. unfold stops_inv in Hst.
  step_cases H. subst w'. simpl.
  assert (Hg : gone w).
  { apply alive_0. apply Z.eqb_eq in E0. lia. }
  split; [exact Hg|].
  split; [apply Hst; lia|].
  repeat (split; [reflexivity|]).
  intros ls w'' Hls Hrun. eapply gone_run in Hrun; eauto.
Qed.

Lemma Stop_waits_for_workers_only_witness :
  let w := world_after 1 1 [LStart; LSubmitTask (someTask "a" 0);
                            LStopClose; LWSelectQuit 0; LWDone 0] in
  reachable someLimit w
  ∧ step w LStopReturn = Some (world_after 1 1
                                 [LStart; LSubmitTask (someTask "a" 0);
                                  LStopClose; LWSelectQuit 0; LWDone 0;
                                  LStopReturn])
  ∧ gone (world_after 1 1
            [LStart; LSubmitTask (someTask "a" 0);
             LStopClose; LWSelectQuit 0; LWDone 0; LStopReturn]).
Proof.
  assert (Hr : reachable someLimit
                 (world_after 1 1 [LStart; LSubmitTask (someTask "a" 0);
                                   LStopClose; LWSelectQuit 0; LWDone 0])).
  { apply reachable_world_after; [vm_compute; split; discriminate|].
    vm_compute. eexists. reflexivity. }
  assert (Hs : step (world_after 1 1 [LStart; LSubmitTask (someTask "a" 0);
                                      LStopClose; LWSelectQuit 0; LWDone 0])
                 LStopReturn
               = Some (world_after 1 1
                         [LStart; LSubmitTask (someTask "a" 0);
                          LStopClose; LWSelectQuit 0; LWDone 0;
                          LStopReturn])).
  { vm_compute. reflexivity. }
  split; [exact Hr|]. split; [exact Hs|].
  exact (proj1 (Stop_waits_for_workers_only someLimit _ _ Hr Hs)).
Defined.

(** C10: once a call of [Stop] has closed the quit channel, whatever
    happens next, a further call of [Stop] panics in its [close(s.quit)] and
    the program does nothing more.  [main] makes these two calls, the
    explicit one after the signal and the deferred one when it returns: its
    run ends in that panic. *)
Theorem Stop_twice_panics (w0 w : World) (between : list Label) :
  run w0 (LStopClose :: between) = Some w → panicked w = None →
  (∃ w', step w LStopClose = Some w'
         ∧ panicked w' = Some "close of closed channel"
         ∧ ∀ a, step w' a = None)
  ∧ filter (λ a, is_StopClose a = true)
      (main_setup ++ main_explicit_stop ++ main_deferred)
    = [LStopClose; LStopClose]
  ∧ ∃ wm, after 5 50 main_run = Some wm
          ∧ stop_returned wm = 1%nat
          ∧ length (executions wm) = 6%nat
          ∧ panicked wm = Some "close of closed channel".
Proof.
  intros Hrun Hp. split; [|split].
  - simpl in Hrun. destruct (step w0 LStopClose) as [w1|] eqn:E;
      [|discriminate].
    assert (Hq1 : panicked w1 = None → quit (sched w1) = true).
    { intros Hp1. step_cases E; subst w1; [discriminate Hp1|reflexivity]. }
    assert (Hp1 : panicked w1 = None).
    { destruct between as [|a ls]; simpl in Hrun.
      - injection Hrun as ->. exact Hp.
      - unfold step in Hrun. destruct (panicked w1); [discriminate|].
        reflexivity. }
    pose proof (quit_run _ _ _ Hrun (Hq1 Hp1)) as Hq.
    exists (with_panic w "close of closed channel").
    split; [|split; [reflexivity|intros a; reflexivity]].
    unfold step. rewrite Hp. unfold Stop_close, close_quit. rewrite Hq.
    reflexivity.
  - vm_compute. reflexivity.
  - eexists. split; [vm_compute; reflexivity|].
    conj_compute.
Qed.

Lemma Stop_twice_panics_witness :
  let w0 := world_after 1 1 [LStart] in
  let w := world_after 1 1 [LStart; LStopClose; LWSelectQuit 0; LWDone 0;
                            LStopReturn; LCtxCancel main_ctx] in
  run w0 [LStopClose; LWSelectQuit 0; LWDone 0; LStopReturn;
          LCtxCancel main_ctx] = Some w
  ∧ panicked w = None
  ∧ ∃ w', step w LStopClose = Some w'
          ∧ panicked w' = Some "close of closed channel"
          ∧ ∀ a, step w' a = None.
Proof.
  assert (Hrun : run (world_after 1 1 [LStart])
                   (LStopClose :: [LWSelectQuit 0; LWDone 0; LStopReturn;
                                   LCtxCancel main_ctx])
                 = Some (world_after 1 1
                           [LStart; LStopClose; LWSelectQuit 0; LWDone 0;
                            LStopReturn; LCtxCancel main_ctx])).
  { vm_compute. reflexivity. }
  split; [exact Hrun|]. split; [reflexivity|].
  exact (proj1 (Stop_twice_panics _ _ _ Hrun eq_refl)).
Defined.

(** ** ScheduleWithDelay *)




(** The call itself: a goroutine is started and [nil] returned; when the
    goroutine runs, it makes a timer due after the delay and reaches its
    [select]. *)
Lemma ScheduleWithDelay_spawns (w : World) (c : Context) (t : Task)
  (d : Duration) :
  panicked w = None →
  snd (ScheduleWithDelay c t d w) = None
  ∧ step (fst (ScheduleWithDelay c t d w)) (LDStart (length (delayed w)))
    = Some (with_delayed w
              (delayed w ++ [DSelect t c (due_after w d) false])).
Proof.
  intros Hp. split; [reflexivity|].
  unfold step, delay_start. simpl. rewrite Hp.
  rewrite lookup_app_r by lia. rewrite Nat.sub_diag. simpl.
  rewrite insert_app_r_alt by lia. rewrite Nat.sub_diag. reflexivity.
Qed.

(** ** ScheduleRecurring *)




(** ** Periodic tasks *)

(** C8, as the claim has it, fails: a task is registered under a name and
    run by a ticker; a second one is registered under the same name; the
    registry now has the second, but the ticker of the first is as before,
    and a minute later the first is submitted and executed under that
    name. *)
Lemma NewPeriodicTask_duplicate_cancels_nothing :
  ∃ w1 w2 w3,
    after 1 1 [LStart; LNewPeriodicTask "job" (1 * Hour) 0 3;
               LScheduleRecurring Background (PeriodicRef 0) (1 * Minute);
               LRStart 0] = Some w1
    ∧ periodicTask (sched w1) !! "job" = Some 0%nat
    ∧ step w1 (LNewPeriodicTask "job" (2 * Hour) 1 3) = Some w2
    ∧ periodicTask (sched w2) !! "job" = Some 1%nat
    ∧ recurring w2 = recurring w1
    ∧ recurring w2
      = [RLoop (PeriodicRef 0) Background (1 * Minute) (1 * Minute) false]
    ∧ run w2 [LClock (1 * Minute); LTickerTick 0; LRTick 0; LWSelectTask 0;
              LWExecute 0] = Some w3
    ∧ executions w3 = [PeriodicRef 0]
    ∧ GetName w3 (PeriodicRef 0) = "job".
Proof.
  eexists _, _, _.
  split; [vm_compute; reflexivity|].
  split; [vm_compute; reflexivity|].
  split; [vm_compute; reflexivity|].
  conj_compute.
Qed.

(** C8, amended: [NewPeriodicTask] makes a handle whose [lastRun] is the
    time of the call, with the interval, the function and the priority given
    and the retry policy (3, 500ms), and stores it in the registry under the
    name, with the registry lock held: the name then has this handle and no
    other, a handle registered under the name before is no longer in the
    registry, and every other name keeps its handle.  Nothing else is
    touched: the prior handle itself, the queue and every goroutine, timer
    and ticker are as before. *)
Theorem NewPeriodicTask_registers (limit : Z) (w : World) (name : string)
  (every : Duration) (run : nat) (priority : Z) :
  reachable limit w →
  ∃ w', NewPeriodicTask name every run priority w
        = Some (length (heap w), w')
        ∧ heap w' !! length (heap w)
          = Some {| PT_BaseTask :=
                      {| Name := name; Priority := priority;
                         BaseTask_RetryPolicy :=
                           {| MaxRetries := 3;
                              BackoffBase := 500 * Millisecond |} |};
                    interval := every; lastRun := now w; runFunc := run;
                    p_mu := false |}
        ∧ (∀ l p, heap w !! l = Some p → heap w' !! l = Some p)
        ∧ periodicTask (sched w') !! name = Some (length (heap w))
        ∧ (∀ n, n ≠ name →
             periodicTask (sched w') !! n = periodicTask (sched w) !! n)
        ∧ accesses w' = accesses w ++ [mkAccess Registry Write true]
        ∧ guarded w' ∧ locks_free w'
        ∧ taskQueue (sched w') = taskQueue (sched w)
        ∧ quit (sched w') = quit (sched w)
        ∧ pool w' = pool w
        ∧ delayed w' = delayed w
        ∧ recurring w' = recurring w
        ∧ executions w' = executions w
        ∧ now w' = now w.
Proof.
  intros Hr. destruct (locks_guarded_reachable _ _ Hr) as [[Hmu Hh] Hg].
  eexists. split; [apply NewPeriodicTask_Some, Hmu|]. simpl.
  split; [|split; [|split; [|split; [|split; [|split; [|split]]]]]].
  - rewrite lookup_app_r by lia. rewrite Nat.sub_diag. reflexivity.
  - intros l p Hl. apply lookup_app_l_Some. exact Hl.
  - apply lookup_insert_eq.
  - intros n Hn. apply lookup_insert_ne. congruence.
  - reflexivity.
  - unfold guarded. simpl. apply Forall_app. split; [exact Hg|].
    repeat constructor.
  - unfold locks_free. simpl. split; [exact Hmu|].
    apply Forall_app. split; [exact Hh|]. repeat constructor.
  - repeat split.
Qed.

Lemma NewPeriodicTask_registers_witness :
  let w := world_after 5 50 [LStart;
                             LNewPeriodicTask "job" (1 * Hour) 0 3] in
  reachable someLimit w
  ∧ ∃ w', NewPeriodicTask "job" (1 * Minute) 1 3 w = Some (1%nat, w')
          ∧ periodicTask (sched w) !! "job" = Some 0%nat
          ∧ periodicTask (sched w') !! "job" = Some 1%nat.
Proof.
  assert (Hr : reachable someLimit
                 (world_after 5 50
                    [LStart; LNewPeriodicTask "job" (1 * Hour) 0 3])).
  { apply reachable_world_after; [vm_compute; split; discriminate|].
    vm_compute. eexists. reflexivity. }
  split; [exact Hr|].
  destruct (NewPeriodicTask_registers someLimit _ "job" (1 * Minute) 1 3 Hr)
    as (w' & H1 & _ & _ & H2 & _).
  exists w'. split; [exact H1|]. split; [vm_compute; reflexivity|exact H2].
Defined.

(** C7: for a periodic task of a running program, with clock readings in
    the range of the monotonic clock, [ShouldRun] returns [true] exactly when
    [now - lastRun >= interval]; [Execute] sets [lastRun] to the time at
    which it is entered, and the value is still that one when the function
    of the task has returned, whatever time that took; the read in
    [ShouldRun], the write in [Execute] and every access made before them
    happened with the lock held, and the lock is free afterwards. *)
Theorem PeriodicTask_lastRun (limit : Z) (w : World) (l : loc)
  (p : PeriodicTask) :
  reachable limit w → heap w !! l = Some p →
  0 <= lastRun p <= maxInt64 → 0 <= now w <= maxInt64 →
  int64 (interval p) →
  (∃ b w', ShouldRun l w = Some (b, w')
           ∧ (b = true ↔ now w - lastRun p >= interval p)
           ∧ heap w' = heap w
           ∧ accesses w' = accesses w ++ [mkAccess (LastRunOf l) Read true])
  ∧ (∀ took result,
       ∃ w', PeriodicTask_Execute l took result w = Some (result, w')
             ∧ lastRun <$> heap w' !! l = Some (now w)
             ∧ now w' = now w + took
             ∧ accesses w'
               = accesses w ++ [mkAccess (LastRunOf l) Write true]
             ∧ locks_free w')
  ∧ (∀ i, panicked w = None →
          pool w !! i = Some (WRecvd (PeriodicRef l)) →
          ∃ w1, step w (LWExecute i) = Some w1
                ∧ lastRun <$> heap w1 !! l = Some (now w)
                ∧ ∀ d err w2 w3,
                    step w1 (LClock d) = Some w2 →
                    step w2 (LWReturn i err) = Some w3 →
                    lastRun <$> heap w3 !! l = Some (now w)
                    ∧ now w3 = now w + d)
  ∧ guarded w.
Proof.
  intros Hr Hl Hlr Hnow Hiv.
  destruct (locks_guarded_reachable _ _ Hr) as [[Hmu Hh] Hg].
  assert (Hpmu : p_mu p = false).
  { eapply Forall_lookup in Hh; [exact Hh | exact Hl]. }
  pose proof (lookup_lt_Some _ _ _ Hl) as Hlt.
  split; [|split; [|split]].
  - eexists _, _. split; [apply (ShouldRun_Some _ _ _ Hl Hpmu)|].
    split; [|split; reflexivity].
    unfold sat64, int64, minInt64, maxInt64 in *.
    destruct (now w - lastRun p <? - 2 ^ 63) eqn:E1;
      [apply Z.ltb_lt in E1; lia|].
    destruct (2 ^ 63 - 1 <? now w - lastRun p) eqn:E2;
      [apply Z.ltb_lt in E2; lia|].
    rewrite Z.leb_le. lia.
  - intros took result. unfold PeriodicTask_Execute.
    rewrite (PeriodicTask_Execute_enter_Some _ _ _ Hl Hpmu). simpl.
    eexists. split; [reflexivity|]. simpl.
    rewrite list_lookup_insert_eq by exact Hlt.
    repeat (split; [reflexivity|]).
    unfold locks_free. simpl. split; [exact Hmu|].
    apply Forall_insert_heap; [exact Hh | exact Hpmu].
  - intros i Hp Hi. pose proof (lookup_lt_Some _ _ _ Hi) as Hilt.
    unfold step at 1, worker_execute. rewrite Hp, Hi. simpl.
    rewrite (PeriodicTask_Execute_enter_Some _ _ _ Hl Hpmu). simpl.
    eexists. split; [reflexivity|]. simpl.
    rewrite list_lookup_insert_eq by exact Hlt.
    split; [reflexivity|].
    intros d err w2 w3 H2 H3.
    step_cases H2. subst w2. step_cases H3. subst w3. simpl.
    rewrite list_lookup_insert_eq by exact Hlt. split; reflexivity.
  - exact Hg.
Qed.

Lemma PeriodicTask_lastRun_witness :
  let w := world_after 5 50 [LStart;
                             LNewPeriodicTask "job" (1 * Hour) 0 3;
                             LClock (90 * Minute)] in
  reachable someLimit w
  ∧ heap w !! 0%nat = Some (newPeriodicTask "job" (1 * Hour) 0 3 0)
  ∧ ∃ b w', ShouldRun 0 w = Some (b, w')
            ∧ (b = true ↔ 90 * Minute - 0 >= 1 * Hour).
Proof.
  assert (Hr : reachable someLimit
                 (world_after 5 50
                    [LStart; LNewPeriodicTask "job" (1 * Hour) 0 3;
                     LClock (90 * Minute)])).
  { apply reachable_world_after; [vm_compute; split; discriminate|].
    vm_compute. eexists. reflexivity. }
  split; [exact Hr|]. split; [vm_compute; reflexivity|].
  destruct (PeriodicTask_lastRun someLimit _ 0%nat
              (newPeriodicTask "job" (1 * Hour) 0 3 0) Hr)
    as ((b & w' & H1 & H2 & _) & _).
  - vm_compute. reflexivity.
  - vm_compute. split; discriminate.
  - vm_compute. split; discriminate.
  - vm_compute. split; discriminate.
  - exists b, w'. split; [exact H1 | exact H2].
Defined.

(** ** Retries *)


Section StatsTaskProofs.

Variable conv_overflow : Z.
Variable api : Z → error.
Variable t : GetFundingStatsTask.

Let k : Z := MaxRetries (BaseTask_RetryPolicy (FS_BaseTask t)).
Let never : Z → bool := λ _, false.
Let loop := Execute_loop conv_overflow api never never t.

Lemma Execute_loop_exit fuel a err :
  k < a → loop fuel a err = Some (err, [Result false err]).
Proof.
  intros Ha. unfold loop. destruct fuel; simpl; fold k;
    (destruct (a <=? k) eqn:E; [apply Z.leb_le in E; lia|reflexivity]).
Qed.

Lemma Execute_loop_fail fuel a err e :
  a <= k → api a = Some e →
  loop (S fuel) a err
  = '(r, evs) ← loop fuel (a + 1) (Some e);
    Some (r, ApiCall a ((0 <? FS_Start t) || (0 <? FS_End t))
             :: (if a <? k
                 then Sleep (backoffDuration conv_overflow t a) :: evs
                 else evs)).
Proof.
  intros Ha He. unfold loop. simpl. fold k.
  apply Z.leb_le in Ha. rewrite Ha. unfold never at 1. rewrite He.
  destruct (a <? k); [unfold never at 1|];
    destruct (Execute_loop _ _ _ _ _ _ _ _) as [[r evs]|]; reflexivity.
Qed.


(** The client fails at every attempt and nothing is cancelled: from
    attempt [a] on, the loop makes the [k + 1 - a] calls that are left,
    sleeps the backoff of every attempt but the last, and ends with the
    error of the last call. *)
Lemma Execute_loop_all_fail fuel : ∀ a err,
  (∀ x, api x ≠ None) →
  0 <= a <= k + 1 → fuel = Z.to_nat (k + 1 - a) →
  ∃ evs,
    loop fuel a err
    = Some (match fuel with O => err | S _ => api k end, evs)
    ∧ calls evs = fuel
    ∧ sleeps evs = backoffDuration conv_overflow t <$> seqZ a (k - a)
    ∧ last evs
      = Some (Result false (match fuel with O => err | S _ => api k end)).
Proof.
  induction fuel as [|fuel IH]; intros a err Hall Ha Hf.
  - assert (a = k + 1) as -> by lia.
    rewrite Execute_loop_exit by lia. eexists. split; [reflexivity|].
    rewrite seqZ_nil by lia. repeat split.
  - assert (Hak : a <= k) by lia.
    destruct (api a) as [e|] eqn:He; [|destruct (Hall a He)].
    rewrite (Execute_loop_fail _ _ _ _ Hak He).
    destruct (IH (a + 1) (Some e) Hall ltac:(lia) ltac:(lia))
      as (evs & Hl & Hc & Hs & Hlast).
    assert (Hr : match fuel return error with
                 | O => Some e
                 | S _ => api k
                 end = api k).
    { destruct fuel; [|reflexivity].
      assert (a = k) as -> by lia. symmetry. exact He. }
    rewrite Hr in Hl, Hlast. rewrite Hl. simpl.
    eexists. split; [reflexivity|].
    destruct (a <? k) eqn:E.
    + apply Z.ltb_lt in E. simpl. rewrite Hc, Hs.
      split; [reflexivity|]. split.
      * rewrite (seqZ_cons a (k - a)) by lia. rewrite fmap_cons.
        replace (Z.succ a) with (a + 1) by lia.
        replace (Z.pred (k - a)) with (k - (a + 1)) by lia. reflexivity.
      * rewrite !last_cons, Hlast. reflexivity.
    + apply Z.ltb_ge in E. simpl. rewrite Hc, Hs.
      split; [reflexivity|]. split.
      * rewrite !seqZ_nil by lia. reflexivity.
      * rewrite last_cons, Hlast. reflexivity.
Qed.


Lemma backoffDuration_exact a :
  0 <= a < 63 →
  backoffDuration conv_overflow t a
  = wrap64 (2 ^ a * BackoffBase (BaseTask_RetryPolicy (FS_BaseTask t))).
Proof.
  intros Ha. unfold backoffDuration, pow2_duration.
  destruct (a <? 63) eqn:E; [reflexivity|]. apply Z.ltb_ge in E. lia.
Qed.

End StatsTaskProofs.




(** * More of the scheduler *)

(** The three things a submission can do. *)
Lemma SubmitTask_cases t w :
  (∃ r, find_parked (pool w) = Some r ∧ pool w !! r = Some WParked
        ∧ SubmitTask t w = with_pool w (<[r := WRecvd t]> (pool w)))
  ∨ (find_parked (pool w) = None
     ∧ Z.of_nat (length (buf (taskQueue (sched w))))
       < cap (taskQueue (sched w))
     ∧ SubmitTask t w = set_buf w (buf (taskQueue (sched w)) ++ [t]))
  ∨ (find_parked (pool w) = None
     ∧ cap (taskQueue (sched w))
       <= Z.of_nat (length (buf (taskQueue (sched w))))
     ∧ SubmitTask t w = w).
Proof.
  unfold SubmitTask, chansend_nb.
  destruct (find_parked (pool w)) as [r|] eqn:E.
  - left. exists r. split; [reflexivity|].
    split; [apply find_parked_Some, E | reflexivity].
  - right. destruct (_ <? _) eqn:E1.
    + left. apply Z.ltb_lt in E1. auto.
    + right. apply Z.ltb_ge in E1. auto.
Qed.

(** After [step_cases]: take every submission in the goal apart. *)
Ltac submit_cases :=
  repeat match goal with
         | |- context [SubmitTask ?t ?w] =>
             let r := fresh "r" in
             let Hf := fresh "Hfind" in
             let Hr := fresh "Hroom" in
             let Hs := fresh "Hsub" in
             destruct (SubmitTask_cases t w)
               as [(r & Hf & Hr & Hs)|[(Hf & Hr & Hs)|(Hf & Hr & Hs)]];
             rewrite Hs in *; clear Hs; simpl
         end.

Lemma queue_inv_step w a w' : queue_inv w → step w a = Some w' → queue_inv w'.
Proof.
  unfold queue_inv. intros (H0 & Hlen & Hq) H.
  step_cases H; subst; simpl; submit_cases;
    rewrite ?length_app; simpl; try (repeat split; (assumption || lia)).
  all: repeat match goal with
              | E : buf _ = _ |- _ => rewrite ?E; clear E
              end;
       simpl in *; repeat split; (assumption || lia).
Qed.

(** X1: in every world a program reaches, the queue holds at most
    [queueSize] tasks, the capacity given to [NewScheduler], which is not
    negative and within what can be allocated. *)
Theorem queue_bounded (limit : Z) (w : World) :
  reachable limit w →
  0 <= queueSize (sched w) <= limit
  ∧ Z.of_nat (length (buf (taskQueue (sched w)))) <= queueSize (sched w)
  ∧ cap (taskQueue (sched w)) = queueSize (sched w).
Proof.
  intros Hr.
  assert (H : queue_inv w ∧ cap (taskQueue (sched w)) <= limit).
  { induction Hr as [t0 n q w H|w a w' _ IH H].
    - unfold NewScheduler in H.
      destruct (makechan limit q) as [c|] eqn:E; [|discriminate].
      simpl in H. injection H as <-. unfold makechan in E.
      destruct ((q <? 0) || (limit <? q)) eqn:E1; [discriminate|].
      injection E as <-. apply orb_false_elim in E1. destruct E1 as [E1 E2].
      apply Z.ltb_ge in E1, E2. unfold queue_inv. simpl. lia.
    - destruct IH as [IH1 IH2].
      split; [eapply queue_inv_step; eassumption|].
      clear IH1. step_cases H; subst; simpl; submit_cases; assumption. }
  destruct H as ((H0 & Hlen & Hq) & Hl). rewrite <- Hq. lia.
Qed.

Lemma queue_bounded_witness :
  let w := world_after 1 1 [LStart; LSubmitTask (someTask "a" 0);
                            LSubmitTask (someTask "b" 1)] in
  reachable someLimit w
  ∧ Z.of_nat (length (buf (taskQueue (sched w)))) <= queueSize (sched w).
Proof.
  assert (Hr : reachable someLimit
                 (world_after 1 1 [LStart; LSubmitTask (someTask "a" 0);
                                   LSubmitTask (someTask "b" 1)])).
  { apply reachable_world_after; [vm_compute; split; discriminate|].
    vm_compute. eexists. reflexivity. }
  split; [exact Hr|].
  exact (proj1 (proj2 (queue_bounded someLimit _ Hr))).
Defined.

(** ** Workers leave only when told to *)

Lemma left_on_quit_step w a w' :
  Forall (left_on_quit (quit (sched w))) (pool w) → step w a = Some w' →
  Forall (left_on_quit (quit (sched w'))) (pool w').
Proof.
  intros Hinv H.
  assert (Halive : ∀ i x, x ≠ WQuit → x ≠ WDone →
            Forall (left_on_quit (quit (sched w))) (<[i := x]> (pool w))).
  { intros i x H1 H2. apply Forall_insert; [exact Hinv|].
    intros [?|?]; congruence. }
  step_cases H; subst; simpl; submit_cases;
    try match goal with
        | E : quit (sched w) = _ |- _ => rewrite ?E in *
        end;
    try exact Hinv; try (apply Halive; discriminate).
  - apply Forall_app. split; [exact Hinv|].
    apply Forall_replicate. intros [?|?]; discriminate.
  - apply Forall_fmap. eapply Forall_impl; [exact Hinv|].
    intros x _ _. reflexivity.
  - apply Forall_insert; [exact Hinv|]. intros _. reflexivity.
  - apply Forall_insert; [exact Hinv|]. intros _.
    eapply Forall_lookup in Hinv; [|eassumption]. apply Hinv. left.
    reflexivity.
Qed.

(** X2: until [Stop] closes the quit channel no worker leaves: in every
    world a program reaches, a worker that is returning or has returned
    finds the quit channel closed, and with the channel open every worker
    that was started is alive. *)
Theorem workers_leave_only_on_quit (limit : Z) (w : World) :
  reachable limit w →
  (∀ i p, pool w !! i = Some p → p = WQuit ∨ p = WDone →
          quit (sched w) = true)
  ∧ (quit (sched w) = false →
     alive (pool w) = length (pool w)
     ∧ wg (sched w) = Z.of_nat (length (pool w))).
Proof.
  intros Hr.
  assert (Hinv : Forall (left_on_quit (quit (sched w))) (pool w)).
  { induction Hr as [t0 n q w H|w a w' _ IH H].
    - apply NewScheduler_inv in H.
      destruct H as (_ & _ & _ & _ & -> & _). constructor.
    - eapply left_on_quit_step; eassumption. }
  split.
  - intros i p Hi Hp. eapply Forall_lookup in Hinv; [|exact Hi].
    apply Hinv, Hp.
  - intros Hq. rewrite Hq in Hinv.
    assert (Ha : alive (pool w) = length (pool w)).
    { induction Hinv as [|x p Hx _ IH]; [reflexivity|]. simpl.
      rewrite IH. destruct x; try reflexivity;
        (exfalso; assert (false = true) by (apply Hx; auto); discriminate). }
    split; [exact Ha|].
    rewrite <- Ha. apply (wg_inv_reachable _ _ Hr).
Qed.

Lemma workers_leave_only_on_quit_witness :
  let w := world_after 5 50 [LStart; LWPark 0; LWPark 3] in
  reachable someLimit w
  ∧ quit (sched w) = false
  ∧ alive (pool w) = length (pool w)
  ∧ wg (sched w) = 5.
Proof.
  assert (Hr : reachable someLimit
                 (world_after 5 50 [LStart; LWPark 0; LWPark 3])).
  { apply reachable_world_after; [vm_compute; split; discriminate|].
    vm_compute. eexists. reflexivity. }
  split; [exact Hr|]. split; [reflexivity|].
  destruct (proj2 (workers_leave_only_on_quit someLimit _ Hr) eq_refl)
    as [H1 H2].
  split; [exact H1 | exact H2].
Defined.

(** ** Executions and submissions *)









(** ** The size of the pool *)

Lemma pool_size_step w a w' :
  step w a = Some w' →
  workers (sched w') = workers (sched w)
  ∧ length (pool w')
    = (length (pool w)
       + (if is_Start a then Z.to_nat (workers (sched w)) else 0))%nat.
Proof.
  intros H.
  step_cases H; subst; simpl; submit_cases;
    rewrite ?length_insert, ?length_fmap, ?length_app, ?length_replicate;
    split; (reflexivity || lia).
Qed.

(** X4: [Start] has no guard against a second call: every call adds
    [workers] more workers (none for a count that is not positive), and
    nothing else changes the size of the pool, so after a run the pool has
    [workers] goroutines for every [Start] in it. *)
Theorem pool_size_counts_starts (w w' : World) (ls : list Label) :
  run w ls = Some w' →
  workers (sched w') = workers (sched w)
  ∧ length (pool w')
    = (length (pool w)
       + count_labels is_Start ls * Z.to_nat (workers (sched w)))%nat.
Proof.
  unfold count_labels. revert w.
  induction ls as [|a ls IH]; simpl; intros w H.
  - injection H as <-. split; [reflexivity|lia].
  - destruct (step w a) as [w1|] eqn:E; [|discriminate].
    destruct (pool_size_step _ _ _ E) as [Hw Hl].
    destruct (IH _ H) as [Hw' Hl']. rewrite Hw in Hw', Hl'.
    split; [exact Hw'|]. rewrite Hl', Hl, filter_cons.
    destruct (decide (is_Start a = true)) as [Ha|Ha].
    + rewrite Ha. simpl. lia.
    + destruct (is_Start a); [congruence|]. lia.
Qed.

Lemma pool_size_counts_starts_witness :
  let ls := [LStart; LSubmitTask (someTask "a" 0); LStart] in
  run (newWorld 5 50) ls = Some (world_after 5 50 ls)
  ∧ length (pool (world_after 5 50 ls)) = 10%nat.
Proof.
  assert (Hrun : run (newWorld 5 50)
                   [LStart; LSubmitTask (someTask "a" 0); LStart]
                 = Some (world_after 5 50
                           [LStart; LSubmitTask (someTask "a" 0); LStart])).
  { vm_compute. reflexivity. }
  split; [exact Hrun|].
  exact (proj2 (pool_size_counts_starts _ _ _ Hrun)).
Defined.

(** ** Submitting several tasks *)

Lemma set_buf_id w : set_buf w (buf (taskQueue (sched w))) = w.
Proof. destruct w as [s]; destruct s as [? ? c]; destruct c; reflexivity. Qed.

Lemma set_buf_set_buf w b1 b2 : set_buf (set_buf w b1) b2 = set_buf w b2.
Proof. reflexivity. Qed.

(** X5: tasks submitted one after the other to a queue on which no worker
    is parked fill it in order up to its capacity, and the rest is dropped:
    the buffer gets the first tasks that fit, in the order of submission, and
    nothing else of the scheduler changes. *)
Theorem SubmitAll_keeps_first (ts : list Task) (w : World) :
  find_parked (pool w) = None →
  Z.of_nat (length (buf (taskQueue (sched w)))) <= cap (taskQueue (sched w)) →
  SubmitAll ts w
  = set_buf w
      (buf (taskQueue (sched w))
       ++ take (Z.to_nat (cap (taskQueue (sched w))
                          - Z.of_nat (length (buf (taskQueue (sched w))))))
            ts).
Proof.
  revert w. induction ts as [|t ts IH]; intros w Hp Hlen; simpl.
  - rewrite take_nil, app_nil_r, set_buf_id. reflexivity.
  - destruct (SubmitTask_cases t w)
      as [(r & Hf & _)|[(_ & Hroom & Hs)|(_ & Hroom & Hs)]];
      [congruence| |]; rewrite Hs.
    + rewrite IH; [|exact Hp|simpl; rewrite length_app; simpl; lia].
      simpl. rewrite set_buf_set_buf, length_app. simpl.
      replace (Z.to_nat (cap (taskQueue (sched w))
                         - Z.of_nat (length (buf (taskQueue (sched w))))))
        with (S (Z.to_nat (cap (taskQueue (sched w))
                           - Z.of_nat (length (buf (taskQueue (sched w)))
                                       + 1)%nat))) by lia.
      simpl. rewrite <- app_assoc. reflexivity.
    + rewrite IH by assumption.
      replace (Z.to_nat (cap (taskQueue (sched w))
                         - Z.of_nat (length (buf (taskQueue (sched w))))))
        with 0%nat by lia.
      rewrite !take_0. reflexivity.
Qed.

Lemma SubmitAll_keeps_first_witness :
  let w := newWorld 5 2 in
  let ts := [someTask "a" 0; someTask "b" 1; someTask "c" 2] in
  find_parked (pool w) = None
  ∧ Z.of_nat (length (buf (taskQueue (sched w)))) <= cap (taskQueue (sched w))
  ∧ buf (taskQueue (sched (SubmitAll ts w)))
    = [someTask "a" 0; someTask "b" 1].
Proof.
  split; [reflexivity|]. split; [vm_compute; discriminate|].
  rewrite (SubmitAll_keeps_first
             [someTask "a" 0; someTask "b" 1; someTask "c" 2]
             (newWorld 5 2) eq_refl);
    [reflexivity | vm_compute; discriminate].
Defined.

(** ** The order of execution *)

Lemma valid_task_Execute_enter w t :
  locks_free w → valid_task w t →
  ∃ w1, Execute_enter t w = Some w1
        ∧ sched w1 = sched w ∧ pool w1 = pool w
        ∧ executions w1 = executions w ∧ panicked w1 = panicked w
        ∧ length (heap w1) = length (heap w) ∧ locks_free w1.
Proof.
  intros [Hmu Hh] Hv. destruct t as [l|b body]; simpl in *.
  - apply lookup_lt_is_Some_2 in Hv. destruct Hv as [p Hl].
    assert (Hpmu : p_mu p = false).
    { eapply Forall_lookup in Hh; [exact Hh | exact Hl]. }
    rewrite (PeriodicTask_Execute_enter_Some _ _ _ Hl Hpmu).
    eexists. split; [reflexivity|]. simpl.
    repeat (split; [reflexivity|]). split; [apply length_insert|].
    split; [exact Hmu|]. apply Forall_insert_heap; [exact Hh | exact Hpmu].
  - eexists. split; [reflexivity|]. repeat split; assumption.
Qed.

Lemma serve_one i err t rest w :
  panicked w = None → pool w !! i = Some WLoop → locks_free w →
  buf (taskQueue (sched w)) = t :: rest → valid_task w t →
  ∃ w', run w (serve i err [t]) = Some w'
        ∧ panicked w' = None ∧ pool w' = pool w ∧ locks_free w'
        ∧ buf (taskQueue (sched w')) = rest
        ∧ length (heap w') = length (heap w)
        ∧ executions w' = executions w ++ [t].
Proof.
  intros Hp Hi Hlf Hb Hv. pose proof (lookup_lt_Some _ _ _ Hi) as Hlt.
  unfold serve. simpl.
  unfold step at 1, worker_select_task. rewrite Hp, Hi, Hb.
  set (w1 := with_pool (set_buf w rest) (<[i := WRecvd t]> (pool w))).
  assert (Hlf1 : locks_free w1) by exact Hlf.
  assert (Hv1 : valid_task w1 t) by exact Hv.
  destruct (valid_task_Execute_enter w1 t Hlf1 Hv1)
    as (w2 & He & Hs2 & Hp2 & Hx2 & Hpa2 & Hh2 & Hlf2).
  unfold step at 1, worker_execute. simpl. rewrite Hp.
  rewrite list_lookup_insert_eq by exact Hlt. rewrite He. simpl.
  unfold step at 1, worker_return. simpl. rewrite Hpa2. simpl. rewrite Hp.
  rewrite Hp2. simpl. rewrite list_lookup_insert_eq
    by (rewrite length_insert; exact Hlt).
  rewrite worker_after_WLoop. eexists. split; [reflexivity|]. simpl.
  rewrite ?Hpa2, ?Hp2, ?Hx2, ?Hs2, ?Hh2. simpl.
  split; [exact Hp|]. split.
  { rewrite !list_insert_insert_eq. apply list_insert_id, Hi. }
  split; [exact Hlf2|]. repeat split.
Qed.

(** X6: a worker takes the tasks of the queue in the order in which they
    were put there, whatever their priorities: serving the whole buffer, it
    begins one execution per task, in buffer order, and leaves the buffer
    empty. *)
Theorem worker_serves_in_order (i : nat) (err : Task → error) (w : World) :
  panicked w = None → pool w !! i = Some WLoop → locks_free w →
  Forall (valid_task w) (buf (taskQueue (sched w))) →
  ∃ w', run w (serve i err (buf (taskQueue (sched w)))) = Some w'
        ∧ executions w' = executions w ++ buf (taskQueue (sched w))
        ∧ buf (taskQueue (sched w')) = []
        ∧ pool w' = pool w.
Proof.
  remember (buf (taskQueue (sched w))) as ts eqn:Hts. symmetry in Hts.
  revert w Hts. induction ts as [|t ts IH]; intros w Hts Hp Hi Hlf Hv.
  - exists w. simpl. rewrite app_nil_r. auto.
  - inversion Hv as [|? ? Hvt Hvts]; subst.
    destruct (serve_one i err t ts w Hp Hi Hlf Hts Hvt)
      as (w1 & Hrun1 & Hp1 & Hpool1 & Hlf1 & Hb1 & Hh1 & Hx1).
    destruct (IH w1 Hb1 Hp1) as (w' & Hrun & Hx & Hb & Hpool).
    + rewrite Hpool1. exact Hi.
    + exact Hlf1.
    + eapply Forall_impl; [exact Hvts|]. intros [l|b body] Hx; simpl in *;
        [rewrite Hh1; exact Hx | exact I].
    + exists w'. split.
      * change (serve i err (t :: ts))
          with (serve i err [t] ++ serve i err ts).
        apply run_app. eauto.
      * rewrite Hx, Hx1, <- app_assoc, Hb, Hpool, Hpool1. auto.
Qed.

Lemma worker_serves_in_order_witness :
  let low := OtherTask {| Name := "low"; Priority := 1;
                          BaseTask_RetryPolicy :=
                            {| MaxRetries := 0; BackoffBase := 0 |} |} 0 in
  let high := OtherTask {| Name := "high"; Priority := 9;
                           BaseTask_RetryPolicy :=
                             {| MaxRetries := 0; BackoffBase := 0 |} |} 1 in
  let w := world_after 1 5 [LStart; LSubmitTask low; LSubmitTask high] in
  panicked w = None ∧ pool w !! 0%nat = Some WLoop
  ∧ ∃ w', run w (serve 0 (λ _, None) (buf (taskQueue (sched w)))) = Some w'
          ∧ executions w' = [low; high].
Proof.
  split; [reflexivity|]. split; [reflexivity|].
  destruct (worker_serves_in_order 0 (λ _, None)
              (world_after 1 5
                 [LStart;
                  LSubmitTask
                    (OtherTask {| Name := "low"; Priority := 1;
                                  BaseTask_RetryPolicy :=
                                    {| MaxRetries := 0;
                                       BackoffBase := 0 |} |} 0);
                  LSubmitTask
                    (OtherTask {| Name := "high"; Priority := 9;
                                  BaseTask_RetryPolicy :=
                                    {| MaxRetries := 0;
                                       BackoffBase := 0 |} |} 1)])
              eq_refl eq_refl)
    as (w' & H1 & H2 & _).
  - split; [reflexivity|constructor].
  - repeat constructor.
  - exists w'. split; [exact H1 | exact H2].
Defined.

(** ** Delays *)

Lemma due_after_mono w w' d :
  now w <= now w' → due_after w d <= due_after w' d.
Proof. unfold due_after. intros H. destruct (d <=? 0); lia. Qed.

Lemma delay_on_time_step due0 d i w a w' :
  due0 <= due_after w d → delay_on_time due0 d w i → step w a = Some w' →
  due0 <= due_after w' d ∧ delay_on_time due0 d w' i.
Proof.
  unfold delay_on_time. intros Hdue Hinv H.
  assert (Hmono : ∀ x, now w <= x →
            due0 <= (if d <=? 0 then x else Z.min (x + d) maxInt64)).
  { intros x Hx. unfold due_after in Hdue. destruct (d <=? 0); lia. }
  step_cases H; subst; simpl; submit_cases;
    try (split; [exact Hdue | exact Hinv]);
    try (split; [exact Hdue|];
         match goal with
         | |- context [<[?j := DDone _]> _ !! i] =>
             destruct (decide (j = i)) as [->|Hne];
             [rewrite list_lookup_insert_eq
                by (eapply lookup_lt_Some; eassumption); exact I
             |rewrite list_lookup_insert_ne by exact Hne; exact Hinv]
         end).
  - (* ScheduleWithDelay: one more goroutine *)
    split; [exact Hdue|].
    destruct (delayed w !! i) as [x|] eqn:Ei; [|destruct Hinv].
    rewrite (lookup_app_l_Some _ _ _ _ Ei). exact Hinv.
  - (* the clock *)
    apply Z.leb_le in E. split; [unfold due_after; simpl; apply Hmono; lia|].
    destruct (delayed w !! i) as [[| |]|]; try exact Hinv.
    destruct Hinv as [H1 H2]. split; [exact H1|]. intros Hf.
    specialize (H2 Hf). lia.
  - (* the goroutine starts *)
    split; [exact Hdue|]. destruct (decide (i0 = i)) as [->|Hne].
    + rewrite list_lookup_insert_eq by (eapply lookup_lt_Some; eassumption).
      rewrite E in Hinv. subst. split; [exact Hdue|discriminate].
    + rewrite list_lookup_insert_ne by exact Hne. exact Hinv.
  - (* the timer fires *)
    split; [exact Hdue|]. destruct (decide (i0 = i)) as [->|Hne].
    + rewrite list_lookup_insert_eq by (eapply lookup_lt_Some; eassumption).
      rewrite E in Hinv. destruct Hinv as [H1 _]. split; [exact H1|].
      intros _. apply Z.leb_le. assumption.
    + rewrite list_lookup_insert_ne by exact Hne. exact Hinv.
Qed.

Lemma delay_on_time_run due0 d i ls : ∀ w w',
  due0 <= due_after w d → delay_on_time due0 d w i → run w ls = Some w' →
  due0 <= due_after w' d ∧ delay_on_time due0 d w' i.
Proof.
  induction ls as [|a ls IH]; simpl; intros w w' Hdue Hinv H.
  - injection H as <-. auto.
  - destruct (step w a) as [w1|] eqn:E; [|discriminate].
    destruct (delay_on_time_step _ _ _ _ _ _ Hdue Hinv E) as [H1 H2].
    eapply IH; eassumption.
Qed.

(** X7: a task given to [ScheduleWithDelay] is never submitted early: in
    every run after the call, when the goroutine of the call submits the
    task, the clock has reached the time at which a timer started at the
    call would be due; for a positive delay that does not overflow, at least
    the delay has passed since the call. *)
Theorem ScheduleWithDelay_not_early (w0 w w' : World) (c : Context)
  (t : Task) (d : Duration) (ls : list Label) :
  run (fst (ScheduleWithDelay c t d w0)) ls = Some w →
  step w (LDTimer (length (delayed w0))) = Some w' →
  due_after w0 d <= now w
  ∧ (0 < d → now w0 + d <= maxInt64 → now w0 + d <= now w).
Proof.
  intros Hrun Hstep.
  assert (Hinv : delay_on_time (due_after w0 d) d w (length (delayed w0))).
  { eapply (delay_on_time_run (due_after w0 d) d _ ls
              (fst (ScheduleWithDelay c t d w0)));
      [reflexivity| |exact Hrun].
    unfold delay_on_time. simpl.
    rewrite lookup_app_r by lia. rewrite Nat.sub_diag. reflexivity. }
  unfold delay_on_time in Hinv. step_cases Hstep. subst.
  destruct Hinv as [H1 H2]. specialize (H2 eq_refl).
  split; [lia|]. intros Hd Ho. unfold due_after in H1.
  destruct (d <=? 0) eqn:Ed; [apply Z.leb_le in Ed; lia|]. lia.
Qed.

Lemma ScheduleWithDelay_not_early_witness :
  let w0 := newWorld 1 1 in
  let t := someTask "late" 0 in
  let ls := [LDStart 0; LClock (150 * Millisecond); LTimerFire 0] in
  run (fst (ScheduleWithDelay Background t (100 * Millisecond) w0)) ls
  = Some (world_after 1 1
            (LScheduleWithDelay Background t (100 * Millisecond) :: ls))
  ∧ is_Some (step (world_after 1 1
                     (LScheduleWithDelay Background t (100 * Millisecond)
                      :: ls)) (LDTimer 0))
  ∧ now w0 + 100 * Millisecond
    <= now (world_after 1 1
              (LScheduleWithDelay Background t (100 * Millisecond) :: ls)).
Proof.
  assert (Hrun : run (fst (ScheduleWithDelay Background (someTask "late" 0)
                             (100 * Millisecond) (newWorld 1 1)))
                   [LDStart 0; LClock (150 * Millisecond); LTimerFire 0]
                 = Some (world_after 1 1
                           (LScheduleWithDelay Background (someTask "late" 0)
                              (100 * Millisecond)
                            :: [LDStart 0; LClock (150 * Millisecond);
                                LTimerFire 0]))).
  { vm_compute. reflexivity. }
  split; [exact Hrun|].
  destruct (step (world_after 1 1
                    (LScheduleWithDelay Background (someTask "late" 0)
                       (100 * Millisecond)
                     :: [LDStart 0; LClock (150 * Millisecond);
                         LTimerFire 0])) (LDTimer 0)) as [w'|] eqn:Hs;
    [|vm_compute in Hs; discriminate Hs].
  split; [eexists; reflexivity|].
  apply (proj2 (ScheduleWithDelay_not_early _ _ _ _ _ _ _ Hrun Hs)).
  - reflexivity.
  - vm_compute. discriminate.
Defined.

(** ** The registry *)

Lemma registry_inv_step w a w' :
  registry_inv w → step w a = Some w' → registry_inv w'.
Proof.
  unfold registry_inv. intros Hinv H.
  step_cases H; subst; simpl; submit_cases; try exact Hinv.
  - (* NewPeriodicTask *)
    intros n l Hl. destruct (decide (name = n)) as [->|Hne].
    + rewrite lookup_insert_eq in Hl. injection Hl as <-.
      eexists. split.
      { rewrite lookup_app_r by lia. rewrite Nat.sub_diag. reflexivity. }
      split; reflexivity.
    + rewrite lookup_insert_ne in Hl by exact Hne.
      destruct (Hinv n l Hl) as (p & Hp & ?). exists p.
      split; [apply lookup_app_l_Some, Hp | assumption].
  - (* Execute writes lastRun *)
    intros n l Hl. destruct (Hinv n l Hl) as (p & Hp & Hn & Hpol).
    destruct (decide (x = l)) as [->|Hne].
    + rewrite list_lookup_insert_eq by (eapply lookup_lt_Some; eassumption).
      eexists. split; [reflexivity|]. simpl.
      assert (x0 = p) as -> by congruence. auto.
    + rewrite list_lookup_insert_ne by exact Hne. eauto.
Qed.

(** X8: in every world a program reaches, every name of the registry has a
    handle that exists, bears that very name and has the retry policy
    (3, 500ms): what the scheduler answers for the handle through the [Task]
    interface is the registered name and that policy. *)
Theorem registry_names_handles (limit : Z) (w : World) (n : string)
  (l : loc) :
  reachable limit w → periodicTask (sched w) !! n = Some l →
  (l < length (heap w))%nat
  ∧ GetName w (PeriodicRef l) = n
  ∧ GetRetryPolicy w (PeriodicRef l)
    = {| MaxRetries := 3; BackoffBase := 500 * Millisecond |}.
Proof.
  intros Hr Hl.
  assert (Hinv : registry_inv w).
  { clear Hl. induction Hr as [t0 k q w H|w a w' _ IH H].
    - unfold NewScheduler in H. destruct (makechan limit q); [|discriminate].
      simpl in H. injection H as <-. intros n' l' Hl'. simpl in Hl'.
      rewrite lookup_empty in Hl'. discriminate.
    - eapply registry_inv_step; eassumption. }
  destruct (Hinv n l Hl) as (p & Hp & Hn & Hpol).
  split; [eapply lookup_lt_Some; exact Hp|].
  unfold GetName, GetRetryPolicy, baseOf. rewrite Hp. auto.
Qed.

Lemma registry_names_handles_witness :
  let w := world_after 5 50 main_setup in
  reachable someLimit w
  ∧ periodicTask (sched w) !! "FundingBook_fUSD" = Some 2%nat
  ∧ GetName w (PeriodicRef 2) = "FundingBook_fUSD".
Proof.
  assert (Hr : reachable someLimit (world_after 5 50 main_setup)).
  { apply reachable_world_after; [vm_compute; split; discriminate|].
    vm_compute. eexists. reflexivity. }
  assert (Hl : periodicTask (sched (world_after 5 50 main_setup))
               !! "FundingBook_fUSD" = Some 2%nat).
  { vm_compute. reflexivity. }
  split; [exact Hr|]. split; [exact Hl|].
  exact (proj1 (proj2 (registry_names_handles someLimit _ _ _ Hr Hl))).
Defined.

Lemma registry_step w a w' n l :
  step w a = Some w' → periodicTask (sched w) !! n = Some l →
  (registers n a = false ∧ periodicTask (sched w') !! n = Some l)
  ∨ (registers n a = true
     ∧ periodicTask (sched w') !! n = Some (length (heap w))).
Proof.
  intros H Hl.
  step_cases H; subst; simpl; submit_cases; try (left; split; auto; fail).
  destruct (decide (name = n)) as [->|Hne].
  - right. rewrite bool_decide_eq_true_2 by reflexivity.
    split; [reflexivity|]. apply lookup_insert_eq.
  - left. rewrite bool_decide_eq_false_2 by exact Hne.
    split; [reflexivity|]. rewrite lookup_insert_ne by exact Hne. exact Hl.
Qed.

(** X9: nothing removes a name from the registry: in every run a
    registered name stays registered, and it keeps its handle as long as the
    run does not register the same name again. *)
Theorem registry_never_forgets (w w' : World) (ls : list Label)
  (n : string) (l : loc) :
  run w ls = Some w' → periodicTask (sched w) !! n = Some l →
  is_Some (periodicTask (sched w') !! n)
  ∧ (count_labels (registers n) ls = 0%nat →
     periodicTask (sched w') !! n = Some l).
Proof.
  unfold count_labels. revert w l.
  induction ls as [|a ls IH]; simpl; intros w l H Hl.
  - injection H as <-. split; [eauto|]. intros _. exact Hl.
  - destruct (step w a) as [w1|] eqn:E; [|discriminate].
    rewrite filter_cons.
    destruct (registry_step _ _ _ _ _ E Hl) as [[Hr H1]|[Hr H1]].
    + destruct (IH _ _ H H1) as [H2 H3]. split; [exact H2|].
      rewrite Hr. destruct (decide (false = true)); [discriminate|].
      exact H3.
    + destruct (IH _ _ H H1) as [H2 _]. split; [exact H2|].
      rewrite Hr. destruct (decide (true = true)); [|congruence].
      simpl. discriminate.
Qed.

Lemma registry_never_forgets_witness :
  let w := world_after 1 1 [LNewPeriodicTask "job" (1 * Hour) 0 3] in
  let ls := [LStart; LCancel "job"; LStopClose; LWSelectQuit 0; LWDone 0;
             LStopReturn] in
  run w ls = Some (world_after 1 1
                     (LNewPeriodicTask "job" (1 * Hour) 0 3 :: ls))
  ∧ periodicTask (sched w) !! "job" = Some 0%nat
  ∧ periodicTask
      (sched (world_after 1 1
                (LNewPeriodicTask "job" (1 * Hour) 0 3 :: ls))) !! "job"
    = Some 0%nat.
Proof.
  assert (Hrun : run (world_after 1 1
                        [LNewPeriodicTask "job" (1 * Hour) 0 3])
                   [LStart; LCancel "job"; LStopClose; LWSelectQuit 0;
                    LWDone 0; LStopReturn]
                 = Some (world_after 1 1
                           (LNewPeriodicTask "job" (1 * Hour) 0 3
                            :: [LStart; LCancel "job"; LStopClose;
                                LWSelectQuit 0; LWDone 0; LStopReturn]))).
  { vm_compute. reflexivity. }
  assert (Hl : periodicTask
                 (sched (world_after 1 1
                           [LNewPeriodicTask "job" (1 * Hour) 0 3]))
               !! "job" = Some 0%nat).
  { vm_compute. reflexivity. }
  split; [exact Hrun|]. split; [exact Hl|].
  apply (proj2 (registry_never_forgets _ _ _ _ _ Hrun Hl)).
  vm_compute. reflexivity.
Defined.

(** ** The interval of a periodic task *)

Lemma sat64_nonneg z : 0 <= z → 0 <= sat64 z ∧ sat64 z <= z.
Proof.
  intros Hz. unfold sat64, minInt64, maxInt64.
  destruct (z <? - 2 ^ 63) eqn:E1; [apply Z.ltb_lt in E1; lia|].
  destruct (2 ^ 63 - 1 <? z) eqn:E2; [apply Z.ltb_lt in E2; lia|lia].
Qed.

(** X10: the interval of a periodic task is counted from the moment its
    execution begins: after an execution that took [took] and a further wait
    of [wait], [ShouldRun] answers [true] exactly when [took + wait] has
    reached the interval, so that an execution longer than the interval
    leaves the task due at once. *)
Theorem ShouldRun_after_Execute (w : World) (l : loc) (p : PeriodicTask)
  (took wait : Duration) (result : error) :
  heap w !! l = Some p → p_mu p = false →
  0 <= took → 0 <= wait → interval p <= maxInt64 →
  ∃ w1 w2 b,
    PeriodicTask_Execute l took result w = Some (result, w1)
    ∧ ShouldRun l (with_now w1 (now w1 + wait)) = Some (b, w2)
    ∧ (b = true ↔ interval p <= took + wait).
Proof.
  intros Hl Hmu Ht Hw Hi. pose proof (lookup_lt_Some _ _ _ Hl) as Hlt.
  unfold PeriodicTask_Execute.
  rewrite (PeriodicTask_Execute_enter_Some _ _ _ Hl Hmu). simpl.
  eexists _, _, _. split; [reflexivity|]. split.
  - apply (ShouldRun_Some _ _ (set_lastRun p (now w))); simpl.
    + apply list_lookup_insert_eq. exact Hlt.
    + exact Hmu.
  - simpl. rewrite Z.leb_le.
    replace (now w + took + wait - now w) with (took + wait) by lia.
    unfold sat64, minInt64, maxInt64 in *.
    destruct (took + wait <? - 2 ^ 63) eqn:E1; [apply Z.ltb_lt in E1; lia|].
    destruct (2 ^ 63 - 1 <? took + wait) eqn:E2;
      [apply Z.ltb_lt in E2; lia|lia].
Qed.

Lemma ShouldRun_after_Execute_witness :
  let w := world_after 5 50 [LNewPeriodicTask "job" (1 * Minute) 0 3] in
  heap w !! 0%nat = Some (newPeriodicTask "job" (1 * Minute) 0 3 0)
  ∧ ∃ w1 w2 b,
      PeriodicTask_Execute 0 (90 * Second) None w = Some (None, w1)
      ∧ ShouldRun 0 (with_now w1 (now w1 + 0)) = Some (b, w2)
      ∧ (b = true ↔ 1 * Minute <= 90 * Second + 0).
Proof.
  split; [reflexivity|].
  apply (ShouldRun_after_Execute
           (world_after 5 50 [LNewPeriodicTask "job" (1 * Minute) 0 3])
           0%nat (newPeriodicTask "job" (1 * Minute) 0 3 0)
           (90 * Second) 0 None eq_refl eq_refl);
    vm_compute; discriminate.
Defined.

Lemma lastRun_inv_step w a w' :
  lastRun_inv w → step w a = Some w' → lastRun_inv w'.
Proof.
  unfold lastRun_inv. intros Hinv H.
  step_cases H; subst; simpl; submit_cases; try exact Hinv.
  - apply Forall_app. split; [exact Hinv|]. repeat constructor. simpl.
    unfold time_Now. lia.
  - apply Z.leb_le in E. eapply Forall_impl; [exact Hinv|].
    simpl. intros p Hp. lia.
  - apply Forall_insert_heap; [exact Hinv|]. simpl. lia.
Qed.

(** X11: no periodic task has a [lastRun] in the future: in every world a
    program reaches, the [lastRun] of every handle is at most the clock, so
    the time since it is never negative and a task whose interval is not
    positive is always due. *)
Theorem lastRun_not_in_future (limit : Z) (w : World) (l : loc)
  (p : PeriodicTask) :
  reachable limit w → heap w !! l = Some p →
  lastRun p <= now w
  ∧ 0 <= time_Since w (lastRun p)
  ∧ (interval p <= 0 → ∃ w', ShouldRun l w = Some (true, w')).
Proof.
  intros Hr Hl.
  assert (Hinv : lastRun_inv w).
  { clear Hl. induction Hr as [t0 k q w H|w a w' _ IH H].
    - apply NewScheduler_inv in H.
      destruct H as (_ & _ & _ & Hh & _). unfold lastRun_inv.
      rewrite Hh. constructor.
    - eapply lastRun_inv_step; eassumption. }
  destruct (locks_guarded_reachable _ _ Hr) as [[_ Hh] _].
  assert (Hmu : p_mu p = false).
  { eapply Forall_lookup in Hh; [exact Hh | exact Hl]. }
  eapply Forall_lookup in Hinv; [|exact Hl]. simpl in Hinv.
  assert (Hs : 0 <= time_Since w (lastRun p)).
  { unfold time_Since, time_Now. apply sat64_nonneg. lia. }
  split; [exact Hinv|]. split; [exact Hs|].
  intros Hi. rewrite (ShouldRun_Some _ _ _ Hl Hmu). eexists.
  unfold time_Since, time_Now in Hs.
  replace (interval p <=? sat64 (now w - lastRun p)) with true; [reflexivity|].
  symmetry. apply Z.leb_le. lia.
Qed.

Lemma lastRun_not_in_future_witness :
  let w := world_after 5 50 [LClock (5 * Second);
                             LNewPeriodicTask "job" 0 0 3; LStart;
                             LSubmitTask (PeriodicRef 0); LWSelectTask 0;
                             LClock (1 * Second); LWExecute 0] in
  reachable someLimit w
  ∧ heap w !! 0%nat = Some (newPeriodicTask "job" 0 0 3 (6 * Second))
  ∧ ∃ w', ShouldRun 0 w = Some (true, w').
Proof.
  assert (Hr : reachable someLimit
                 (world_after 5 50
                    [LClock (5 * Second); LNewPeriodicTask "job" 0 0 3;
                     LStart; LSubmitTask (PeriodicRef 0); LWSelectTask 0;
                     LClock (1 * Second); LWExecute 0])).
  { apply reachable_world_after; [vm_compute; split; discriminate|].
    vm_compute. eexists. reflexivity. }
  assert (Hl : heap (world_after 5 50
                       [LClock (5 * Second); LNewPeriodicTask "job" 0 0 3;
                        LStart; LSubmitTask (PeriodicRef 0); LWSelectTask 0;
                        LClock (1 * Second); LWExecute 0]) !! 0%nat
               = Some (newPeriodicTask "job" 0 0 3 (6 * Second))).
  { vm_compute. reflexivity. }
  split; [exact Hr|]. split; [exact Hl|].
  apply (proj2 (proj2 (lastRun_not_in_future someLimit _ _ _ Hr Hl))).
  vm_compute. discriminate.
Defined.

(** * More of GetFundingStatsTask.Execute *)

Section StatsTaskMore.

Variable conv_overflow : Z.
Variable api : Z → error.
Variable top : Z → bool.
Variable slp : Z → bool.
Variable t : GetFundingStatsTask.

Let k : Z := MaxRetries (BaseTask_RetryPolicy (FS_BaseTask t)).
Let loop := Execute_loop conv_overflow api top slp t.

Lemma loop_exit fuel a err :
  k < a → loop fuel a err = Some (err, [Result false err]).
Proof.
  intros Ha. unfold loop. destruct fuel; simpl; fold k;
    (destruct (a <=? k) eqn:E; [apply Z.leb_le in E; lia|reflexivity]).
Qed.

Lemma loop_step fuel a err :
  a <= k →
  loop (S fuel) a err
  = if top a then Some (Some ctxErr, [Result false (Some ctxErr)])
    else
      let call := ApiCall a ((0 <? FS_Start t) || (0 <? FS_End t)) in
      match api a with
      | None => Some (None, [call; Result true None])
      | Some e =>
          if a <? k
          then
            if slp a
            then Some (Some ctxErr, [call; Result false (Some ctxErr)])
            else
              '(r, evs) ← loop fuel (a + 1) (Some e);
              Some (r, call :: Sleep (backoffDuration conv_overflow t a)
                         :: evs)
          else
            '(r, evs) ← loop fuel (a + 1) (Some e);
            Some (r, call :: evs)
      end.
Proof.
  intros Ha. unfold loop. simpl. fold k. apply Z.leb_le in Ha. rewrite Ha.
  reflexivity.
Qed.

(** Whatever the client and the context do, with fuel for the attempts
    that are left the loop returns, having sent one result, last, with the
    error it returns; it makes no more calls than attempts are left, and
    sleeps less often, each time the backoff of an attempt. *)
Lemma loop_general fuel : ∀ a err,
  (Z.to_nat (k + 1 - a) <= fuel)%nat →
  ∃ r d evs,
    loop fuel a err = Some (r, evs)
    ∧ results evs = [(d, r)]
    ∧ last evs = Some (Result d r)
    ∧ (d = true → r = None)
    ∧ (calls evs <= Z.to_nat (k + 1 - a))%nat
    ∧ (length (sleeps evs) <= Z.to_nat (k - a))%nat
    ∧ Forall (λ s, ∃ x, a <= x < k
                        ∧ s = backoffDuration conv_overflow t x)
        (sleeps evs).
Proof.
  induction fuel as [|fuel IH]; intros a err Hf.
  - rewrite loop_exit by lia. exists err, false, [Result false err].
    simpl. repeat split; (discriminate || lia || constructor).
  - destruct (decide (k < a)) as [Hka|Hka].
    { rewrite loop_exit by lia. exists err, false, [Result false err].
      simpl. repeat split; (discriminate || lia || constructor). }
    rewrite loop_step by lia. destruct (top a).
    { exists (Some ctxErr), false, [Result false (Some ctxErr)].
      simpl. repeat split; (discriminate || lia || constructor). }
    destruct (api a) as [e|].
    2:{ eexists None, true, _. split; [reflexivity|]. simpl.
        repeat split; (lia || constructor). }
    destruct (IH (a + 1) (Some e) ltac:(lia))
      as (r & d & evs & Hl & Hres & Hlast & Hd & Hc & Hs & Hall).
    assert (Hall' : Forall (λ s, ∃ x, a <= x < k
                             ∧ s = backoffDuration conv_overflow t x)
                      (sleeps evs)).
    { eapply Forall_impl; [exact Hall|]. simpl.
      intros s (x & Hx & ->). exists x. split; [lia|reflexivity]. }
    destruct (a <? k) eqn:E.
    + apply Z.ltb_lt in E. destruct (slp a).
      { eexists (Some ctxErr), false, _. split; [reflexivity|]. simpl.
        repeat split; (discriminate || lia || constructor). }
      rewrite Hl. simpl. exists r, d. eexists. split; [reflexivity|].
      simpl. rewrite Hres, !last_cons, Hlast.
      repeat split; try assumption; try lia; try reflexivity.
      constructor; [|exact Hall']. exists a. split; [lia|reflexivity].
    + apply Z.ltb_ge in E. rewrite Hl. simpl. exists r, d. eexists.
      split; [reflexivity|]. simpl. rewrite Hres, last_cons, Hlast.
      repeat split; try assumption; try lia; reflexivity.
Qed.

(** The context is found cancelled at the top of attempt [a], the attempts
    before it having failed without a cancellation. *)
Lemma loop_cancel_top (a : Z) fuel : ∀ x err,
  0 <= x <= a → a <= k → top a = true →
  (∀ y, x <= y < a → api y ≠ None ∧ top y = false ∧ slp y = false) →
  (Z.to_nat (a + 1 - x) <= fuel)%nat →
  ∃ evs,
    loop fuel x err = Some (Some ctxErr, evs)
    ∧ calls evs = Z.to_nat (a - x)
    ∧ length (sleeps evs) = Z.to_nat (a - x)
    ∧ results evs = [(false, Some ctxErr)].
Proof.
  induction fuel as [|fuel IH]; intros x err Hx Hak Htop Hbefore Hf; [lia|].
  rewrite loop_step by lia. destruct (decide (x = a)) as [->|Hne].
  - rewrite Htop. eexists. split; [reflexivity|].
    replace (a - a) with 0 by lia. repeat split.
  - destruct (Hbefore x ltac:(lia)) as (Hapi & Ht & Hs).
    rewrite Ht. destruct (api x) as [e|]; [|congruence].
    assert ((x <? k) = true) as -> by (apply Z.ltb_lt; lia).
    rewrite Hs.
    destruct (IH (x + 1) (Some e)) as (evs & Hl & Hc & Hsl & Hr);
      [lia|exact Hak|exact Htop|intros y Hy; apply Hbefore; lia|lia|].
    rewrite Hl. simpl. eexists. split; [reflexivity|]. simpl.
    rewrite Hc, Hsl, Hr.
    replace (Z.to_nat (a - x)) with (S (Z.to_nat (a - (x + 1)))) by lia.
    repeat split.
Qed.

(** The context is cancelled during the backoff that follows attempt [a],
    the attempts up to it having failed. *)
Lemma loop_cancel_sleep (a : Z) fuel : ∀ x err,
  0 <= x <= a → a < k → slp a = true →
  top a = false → api a ≠ None →
  (∀ y, x <= y < a → api y ≠ None ∧ top y = false ∧ slp y = false) →
  (Z.to_nat (a + 1 - x) <= fuel)%nat →
  ∃ evs,
    loop fuel x err = Some (Some ctxErr, evs)
    ∧ calls evs = Z.to_nat (a + 1 - x)
    ∧ length (sleeps evs) = Z.to_nat (a - x)
    ∧ results evs = [(false, Some ctxErr)].
Proof.
  induction fuel as [|fuel IH];
    intros x err Hx Hak Hslp Htop Hapi Hbefore Hf; [lia|].
  rewrite loop_step by lia. destruct (decide (x = a)) as [->|Hne].
  - rewrite Htop. destruct (api a) as [e|]; [|congruence].
    assert ((a <? k) = true) as -> by (apply Z.ltb_lt; lia).
    rewrite Hslp. eexists. split; [reflexivity|].
    replace (a + 1 - a) with 1 by lia. replace (a - a) with 0 by lia.
    repeat split.
  - destruct (Hbefore x ltac:(lia)) as (Hapix & Ht & Hs).
    rewrite Ht. destruct (api x) as [e|]; [|congruence].
    assert ((x <? k) = true) as -> by (apply Z.ltb_lt; lia).
    rewrite Hs.
    destruct (IH (x + 1) (Some e)) as (evs & Hl & Hc & Hsl & Hr);
      [lia|exact Hak|exact Hslp|exact Htop|exact Hapi
      |intros y Hy; apply Hbefore; lia|lia|].
    rewrite Hl. simpl. eexists. split; [reflexivity|]. simpl.
    rewrite Hc, Hsl, Hr.
    replace (Z.to_nat (a + 1 - x))
      with (S (Z.to_nat (a + 1 - (x + 1)))) by lia.
    replace (Z.to_nat (a - x)) with (S (Z.to_nat (a - (x + 1)))) by lia.
    repeat split.
Qed.

End StatsTaskMore.



(** X14: with a negative [MaxRetries] the loop is not entered: the client
    is not called, a value with neither data nor error is sent, and [nil] is
    returned. *)
Theorem Execute_negative_MaxRetries (conv_overflow : Z) (api : Z → error)
  (top slp : Z → bool) (t : GetFundingStatsTask) :
  MaxRetries (BaseTask_RetryPolicy (FS_BaseTask t)) < 0 →
  GetFundingStatsTask_Execute conv_overflow api top slp t
  = Some (None, [Result false None]).
Proof.
  intros Hk. unfold GetFundingStatsTask_Execute. apply loop_exit. lia.
Qed.

(** A task whose policy has a negative [MaxRetries]. *)
Lemma Execute_negative_MaxRetries_witness :
  let t := {| FS_BaseTask :=
                {| Name := "t"; Priority := 1;
                   BaseTask_RetryPolicy :=
                     {| MaxRetries := -1;
                        BackoffBase := 500 * Millisecond |} |};
              FS_Symbol := "fUSD"; FS_Start := 0; FS_End := 0;
              FS_Limit := 10 |} in
  MaxRetries (BaseTask_RetryPolicy (FS_BaseTask t)) < 0
  ∧ GetFundingStatsTask_Execute 0 (λ _, Some "boom") (λ _, false)
      (λ _, false) t = Some (None, [Result false None]).
Proof.
  split; [reflexivity|].
  apply (Execute_negative_MaxRetries 0 (λ _, Some "boom") (λ _, false)
           (λ _, false)). reflexivity.
Defined.

(** X15: when the context is found cancelled at the top of attempt [a],
    the attempts before it having failed, the client has been called [a]
    times and is not called again: the cancellation error is sent and
    returned.  For a context cancelled from the start there is no call. *)
Theorem Execute_cancelled_before_attempt (conv_overflow : Z)
  (api : Z → error) (top slp : Z → bool) (t : GetFundingStatsTask) (a : Z) :
  0 <= a <= MaxRetries (BaseTask_RetryPolicy (FS_BaseTask t)) →
  top a = true →
  (∀ y, 0 <= y < a → api y ≠ None ∧ top y = false ∧ slp y = false) →
  ∃ evs,
    GetFundingStatsTask_Execute conv_overflow api top slp t
    = Some (Some ctxErr, evs)
    ∧ calls evs = Z.to_nat a
    ∧ length (sleeps evs) = Z.to_nat a
    ∧ results evs = [(false, Some ctxErr)].
Proof.
  intros Ha Htop Hbefore.
  destruct (loop_cancel_top conv_overflow api top slp t a
              (Z.to_nat (MaxRetries (BaseTask_RetryPolicy (FS_BaseTask t))
                         + 1)) 0 None)
    as (evs & H1 & H2 & H3 & H4); try assumption; try lia.
  exists evs. replace (a - 0) with a in * by lia. auto.
Qed.

Lemma Execute_cancelled_before_attempt_witness :
  0 <= 0 <= MaxRetries (BaseTask_RetryPolicy (FS_BaseTask someStatsTask))
  ∧ ∃ evs,
      GetFundingStatsTask_Execute 0 (λ _, None) (λ _, true) (λ _, false)
        someStatsTask = Some (Some ctxErr, evs)
      ∧ calls evs = 0%nat.
Proof.
  split; [vm_compute; split; discriminate|].
  destruct (Execute_cancelled_before_attempt 0 (λ _, None) (λ _, true)
              (λ _, false) someStatsTask 0) as (evs & H1 & H2 & _).
  - vm_compute. split; discriminate.
  - reflexivity.
  - intros y Hy. lia.
  - exists evs. split; [exact H1 | exact H2].
Defined.

(** X16: when the context is cancelled during the backoff that follows
    attempt [a], the attempts up to it having failed, the client has been
    called [a + 1] times and is not called again, the sleep is given up, and
    the cancellation error, not the client's, is sent and returned. *)
Theorem Execute_cancelled_in_backoff (conv_overflow : Z) (api : Z → error)
  (top slp : Z → bool) (t : GetFundingStatsTask) (a : Z) :
  0 <= a < MaxRetries (BaseTask_RetryPolicy (FS_BaseTask t)) →
  slp a = true → top a = false → api a ≠ None →
  (∀ y, 0 <= y < a → api y ≠ None ∧ top y = false ∧ slp y = false) →
  ∃ evs,
    GetFundingStatsTask_Execute conv_overflow api top slp t
    = Some (Some ctxErr, evs)
    ∧ calls evs = Z.to_nat (a + 1)
    ∧ length (sleeps evs) = Z.to_nat a
    ∧ results evs = [(false, Some ctxErr)].
Proof.
  intros Ha Hslp Htop Hapi Hbefore.
  destruct (loop_cancel_sleep conv_overflow api top slp t a
              (Z.to_nat (MaxRetries (BaseTask_RetryPolicy (FS_BaseTask t))
                         + 1)) 0 None)
    as (evs & H1 & H2 & H3 & H4); try assumption; try lia.
  exists evs. replace (a + 1 - 0) with (a + 1) in * by lia.
  replace (a - 0) with a in * by lia. auto.
Qed.

Lemma Execute_cancelled_in_backoff_witness :
  0 <= 1 < MaxRetries (BaseTask_RetryPolicy (FS_BaseTask someStatsTask))
  ∧ ∃ evs,
      GetFundingStatsTask_Execute 0 (λ _, Some "boom") (λ _, false)
        (λ y, y =? 1) someStatsTask = Some (Some ctxErr, evs)
      ∧ calls evs = 2%nat
      ∧ length (sleeps evs) = 1%nat.
Proof.
  split; [vm_compute; split; [discriminate|reflexivity]|].
  destruct (Execute_cancelled_in_backoff 0 (λ _, Some "boom") (λ _, false)
              (λ y, y =? 1) someStatsTask 1) as (evs & H1 & H2 & H3 & _).
  - vm_compute. split; [discriminate|reflexivity].
  - reflexivity.
  - reflexivity.
  - discriminate.
  - intros y Hy. split; [discriminate|]. split; [reflexivity|].
    apply Z.eqb_neq. lia.
  - exists evs. split; [exact H1|]. split; [exact H2 | exact H3].
Defined.

Lemma total_backoff (base : Z) (n : nat) :
  0 <= base → base * 2 ^ Z.of_nat n <= maxInt64 →
  total ((λ a, wrap64 (2 ^ a * base)) <$> seqZ 0 (Z.of_nat n))
  = base * (2 ^ Z.of_nat n - 1).
Proof.
  intros Hb. induction n as [|n IH]; intros Hmax; [simpl; lia|].
  assert (Hpow : 2 ^ Z.of_nat (S n) = 2 * 2 ^ Z.of_nat n).
  { rewrite Nat2Z.inj_succ, Z.pow_succ_r by lia. reflexivity. }
  assert (Hpos : 0 < 2 ^ Z.of_nat n) by (apply Z.pow_pos_nonneg; lia).
  rewrite seqZ_S, fmap_app. unfold total in *. rewrite foldr_app. simpl.
  assert (Hw : wrap64 (2 ^ Z.of_nat n * base) = 2 ^ Z.of_nat n * base).
  { unfold wrap64. unfold maxInt64 in Hmax.
    rewrite Z.mod_small; [lia|]. nia. }
  rewrite Z.add_0_r, Z.add_0_l, Hw.
  assert (Hshift : ∀ (l : list Z) (z : Z),
            foldr Z.add z l = foldr Z.add 0 l + z).
  { induction l as [|x l IHl]; intros z; simpl; [lia|].
    rewrite IHl. lia. }
  rewrite Hshift, IH by nia. rewrite Hpow. lia.
Qed.

(** X17: with [MaxRetries = k] (up to 62) and a backoff base that is not
    negative and does not overflow, an execution in which the client fails
    every time and nothing is cancelled sleeps [BackoffBase * (2^k - 1)] in
    all before it gives up with the last error. *)
Theorem Execute_total_backoff (conv_overflow : Z) (api : Z → error)
  (t : GetFundingStatsTask) :
  let k := MaxRetries (BaseTask_RetryPolicy (FS_BaseTask t)) in
  let base := BackoffBase (BaseTask_RetryPolicy (FS_BaseTask t)) in
  0 <= k <= 62 → 0 <= base → base * 2 ^ k <= maxInt64 →
  (∀ x, api x ≠ None) →
  ∃ evs,
    GetFundingStatsTask_Execute conv_overflow api (λ _, false) (λ _, false)
      t = Some (api k, evs)
    ∧ total (sleeps evs) = base * (2 ^ k - 1).
Proof.
  intros k base Hk Hb Hmax Hall.
  destruct (Execute_loop_all_fail conv_overflow api t (Z.to_nat (k + 1))
              0 None Hall) as (evs & Hl & _ & Hs & _);
    [fold k; lia|fold k; f_equal; lia|].
  fold k in Hl, Hs.
  assert (Hfuel : Z.to_nat (k + 1) = S (Z.to_nat k)) by lia.
  rewrite Hfuel in Hl. rewrite <- Hfuel in Hl.
  exists evs. split; [exact Hl|]. rewrite Hs.
  replace (k - 0) with k by lia.
  rewrite (Forall_fmap_ext_1 _ (λ a, wrap64 (2 ^ a * base))).
  - rewrite <- (Z2Nat.id k) by lia. apply total_backoff; [exact Hb|].
    rewrite Z2Nat.id by lia. exact Hmax.
  - apply Forall_seqZ. intros a Ha. apply backoffDuration_exact. lia.
Qed.

Lemma Execute_total_backoff_witness :
  0 <= 3 <= 62
  ∧ ∃ evs,
      GetFundingStatsTask_Execute 0 (λ _, Some "boom") (λ _, false)
        (λ _, false) someStatsTask = Some (Some "boom", evs)
      ∧ total (sleeps evs) = 3500 * Millisecond.
Proof.
  split; [vm_compute; split; discriminate|].
  destruct (Execute_total_backoff 0 (λ _, Some "boom") someStatsTask)
    as (evs & H1 & H2).
  - vm_compute. split; discriminate.
  - vm_compute. discriminate.
  - vm_compute. discriminate.
  - discriminate.
  - exists evs. split; [exact H1 | exact H2].
Defined.

(** * More of the scheduler: recurring tasks *)

Lemma ticks_on_time_step due0 e j w a w' :
  0 < e → due0 <= due_after w e → ticks_on_time due0 e w j →
  step w a = Some w' →
  due0 <= due_after w' e ∧ ticks_on_time due0 e w' j.
Proof.
  unfold ticks_on_time. intros He Hdue Hinv H.
  step_cases H; subst; simpl; submit_cases;
    try (split; [exact Hdue | exact Hinv]);
    try (split; [exact Hdue|];
         match goal with
         | |- context [<[?i := _]> _ !! j] =>
             destruct (decide (i = j)) as [->|Hne];
             [rewrite list_lookup_insert_eq
                by (eapply lookup_lt_Some; eassumption)
             |rewrite list_lookup_insert_ne by exact Hne; exact Hinv]
         end;
         match goal with
         | E : recurring _ !! j = Some _ |- _ => rewrite E in Hinv
         end).
  - (* ScheduleRecurring: one more goroutine *)
    split; [exact Hdue|].
    destruct (recurring w !! j) as [x|] eqn:Ej; [|destruct Hinv].
    rewrite (lookup_app_l_Some _ _ _ _ Ej). exact Hinv.
  - (* the clock *)
    match goal with E : (0 <=? _) = true |- _ => apply Z.leb_le in E end.
    split.
    + unfold due_after in *. simpl. destruct (e <=? 0); lia.
    + destruct (recurring w !! j) as [[| |]|]; try exact Hinv.
      destruct Hinv as (H1 & H2 & H3). repeat split; try assumption.
      intros Hf. specialize (H3 Hf). lia.
  - (* the goroutine starts *)
    subst. split; [reflexivity|]. split; [exact Hdue|discriminate].
  - (* a tick *)
    destruct Hinv as (-> & H2 & H3).
    match goal with E : (_ <=? _) = true |- _ => apply Z.leb_le in E end.
    split; [reflexivity|]. split; [lia|]. intros _. lia.
  - (* the tick is received *)
    destruct Hinv as (-> & H2 & H3). repeat split; [exact H2|discriminate].
  - destruct Hinv as (-> & H2 & H3). repeat split; [exact H2|discriminate].
  - destruct Hinv as (-> & H2 & H3). repeat split; [exact H2|discriminate].
  - exact I.
  - exact I.
Qed.

Lemma ticks_on_time_run due0 e j ls : ∀ w w',
  0 < e → due0 <= due_after w e → ticks_on_time due0 e w j →
  run w ls = Some w' →
  due0 <= due_after w' e ∧ ticks_on_time due0 e w' j.
Proof.
  induction ls as [|a ls IH]; simpl; intros w w' He Hdue Hinv H.
  - injection H as <-. auto.
  - destruct (step w a) as [w1|] eqn:E; [|discriminate].
    destruct (ticks_on_time_step _ _ _ _ _ _ He Hdue Hinv E) as [H1 H2].
    eapply IH; eassumption.
Qed.

(** X18: a task given to [ScheduleRecurring] with a positive interval is
    never submitted before the first interval has passed: in every run after
    the call, when the goroutine of the call submits the task, the clock has
    reached the time at which a ticker started at the call would first tick;
    if that does not overflow, at least the interval has passed since the
    call. *)
Theorem ScheduleRecurring_not_early (w0 w w' : World) (c : Context)
  (t : Task) (e : Duration) (ls : list Label) :
  0 < e →
  run (fst (ScheduleRecurring c t e w0)) ls = Some w →
  step w (LRTick (length (recurring w0))) = Some w' →
  due_after w0 e <= now w
  ∧ (now w0 + e <= maxInt64 → now w0 + e <= now w).
Proof.
  intros He Hrun Hstep.
  assert (Hinv : ticks_on_time (due_after w0 e) e w (length (recurring w0))).
  { eapply (ticks_on_time_run (due_after w0 e) e _ ls
              (fst (ScheduleRecurring c t e w0)));
      [exact He|reflexivity| |exact Hrun].
    unfold ticks_on_time. simpl.
    rewrite lookup_app_r by lia. rewrite Nat.sub_diag. reflexivity. }
  unfold ticks_on_time in Hinv. step_cases Hstep. subst.
  destruct Hinv as (_ & H2 & H3). specialize (H3 eq_refl).
  split; [exact H3|]. intros Ho. unfold due_after in H3.
  destruct (e <=? 0) eqn:Ed; [apply Z.leb_le in Ed; lia|]. lia.
Qed.

Lemma ScheduleRecurring_not_early_witness :
  let w0 := newWorld 1 1 in
  let t := someTask "stats" 0 in
  let ls := [LRStart 0; LClock (61 * Minute); LTickerTick 0] in
  0 < 1 * Hour
  ∧ run (fst (ScheduleRecurring Background t (1 * Hour) w0)) ls
    = Some (world_after 1 1
              (LScheduleRecurring Background t (1 * Hour) :: ls))
  ∧ is_Some (step (world_after 1 1
                     (LScheduleRecurring Background t (1 * Hour) :: ls))
               (LRTick 0))
  ∧ now w0 + 1 * Hour
    <= now (world_after 1 1
              (LScheduleRecurring Background t (1 * Hour) :: ls)).
Proof.
  assert (Hrun : run (fst (ScheduleRecurring Background (someTask "stats" 0)
                             (1 * Hour) (newWorld 1 1)))
                   [LRStart 0; LClock (61 * Minute); LTickerTick 0]
                 = Some (world_after 1 1
                           (LScheduleRecurring Background
                              (someTask "stats" 0) (1 * Hour)
                            :: [LRStart 0; LClock (61 * Minute);
                                LTickerTick 0]))).
  { vm_compute. reflexivity. }
  split; [reflexivity|]. split; [exact Hrun|].
  destruct (step (world_after 1 1
                    (LScheduleRecurring Background (someTask "stats" 0)
                       (1 * Hour)
                     :: [LRStart 0; LClock (61 * Minute); LTickerTick 0]))
              (LRTick 0)) as [w'|] eqn:Hs;
    [|vm_compute in Hs; discriminate Hs].
  split; [eexists; reflexivity|].
  assert (He : 0 < 1 * Hour) by reflexivity.
  apply (proj2 (ScheduleRecurring_not_early (newWorld 1 1) _ w' Background
                  (someTask "stats" 0) (1 * Hour) _ He Hrun Hs)).
  vm_compute. discriminate.
Defined.


(** * The client's conversion of funding statistics *)

Lemma statsOfRow_None {float64 : Type} (toInt64 : float64 → Z)
  (data : list (Json float64)) :
  statsOfRow toInt64 data = None
  ↔ ∃ i, i ∈ cells_read ∧ cell data i = None.
Proof.
  unfold statsOfRow, cells_read. split.
  - intros H.
    destruct (cell data 0) eqn:E0;
      [|exists 0%nat; split; [apply list_elem_of_In; simpl; tauto|exact E0]].
    destruct (cell data 3) eqn:E3;
      [|exists 3%nat; split; [apply list_elem_of_In; simpl; tauto|exact E3]].
    destruct (cell data 4) eqn:E4;
      [|exists 4%nat; split; [apply list_elem_of_In; simpl; tauto|exact E4]].
    destruct (cell data 7) eqn:E7;
      [|exists 7%nat; split; [apply list_elem_of_In; simpl; tauto|exact E7]].
    destruct (cell data 8) eqn:E8;
      [|exists 8%nat; split; [apply list_elem_of_In; simpl; tauto|exact E8]].
    destruct (cell data 11) eqn:E11;
      [|exists 11%nat; split; [apply list_elem_of_In; simpl; tauto|exact E11]].
    discriminate H.
  - intros (i & Hi & Hc).
    apply list_elem_of_In in Hi. simpl in Hi.
    destruct Hi as [<-|[<-|[<-|[<-|[<-|[<-|[]]]]]]]; rewrite Hc;
      repeat (match goal with
              | |- context [cell data ?n] => destruct (cell data n)
              end);
      reflexivity.
Qed.

Lemma GetFundingStatsWithContext_convert_cons {float64 : Type}
  (fzero : float64) (toInt64 : float64 → Z) (row : list (Json float64))
  (rest : list (list (Json float64))) :
  GetFundingStatsWithContext_convert fzero toInt64 (row :: rest)
  = if (12 <=? length row)%nat
    then
      s ← statsOfRow toInt64 row;
      out ← GetFundingStatsWithContext_convert fzero toInt64 rest;
      Some (s :: out)
    else
      out ← GetFundingStatsWithContext_convert fzero toInt64 rest;
      Some (zeroFundingStats float64 fzero :: out).
Proof.
  change (GetFundingStatsWithContext_convert fzero toInt64 (row :: rest))
    with (s ← (if (12 <=? length row)%nat then statsOfRow toInt64 row
               else Some (zeroFundingStats float64 fzero));
          out ← GetFundingStatsWithContext_convert fzero toInt64 rest;
          Some (s :: out)).
  destruct (12 <=? length row)%nat; reflexivity.
Qed.

Lemma GetFundingStatsWithTimeRangeWithContext_convert_cons {float64 : Type}
  (toInt64 : float64 → Z) (row : list (Json float64))
  (rest : list (list (Json float64))) :
  GetFundingStatsWithTimeRangeWithContext_convert toInt64 (row :: rest)
  = if (12 <=? length row)%nat
    then
      s ← statsOfRow toInt64 row;
      out ← GetFundingStatsWithTimeRangeWithContext_convert toInt64 rest;
      Some (s :: out)
    else GetFundingStatsWithTimeRangeWithContext_convert toInt64 rest.
Proof. reflexivity. Qed.

(** X19: when [GetFundingStatsWithContext] has decoded the response and
    its conversion does not panic, the slice it returns has one entry for
    every row of the response, in order: the zero value for a row of fewer
    than 12 cells, the converted row for every other. *)
Theorem GetFundingStatsWithContext_keeps_rows {float64 : Type}
  (fzero : float64) (toInt64 : float64 → Z)
  (rawData : list (list (Json float64)))
  (out : list (FundingStats float64)) :
  GetFundingStatsWithContext_convert fzero toInt64 rawData = Some out →
  length out = length rawData
  ∧ ∀ (i : nat) (data : list (Json float64)),
      rawData !! i = Some data →
      ((length data < 12)%nat →
       out !! i = Some (zeroFundingStats float64 fzero))
      ∧ ((12 <= length data)%nat →
         ∃ s, statsOfRow toInt64 data = Some s ∧ out !! i = Some s).
Proof.
  revert out. induction rawData as [|row rest IH]; intros out H.
  - injection H as H. subst out. split; [reflexivity|]. intros i data Hi.
    rewrite lookup_nil in Hi. discriminate.
  - rewrite GetFundingStatsWithContext_convert_cons in H.
    destruct (GetFundingStatsWithContext_convert fzero toInt64 rest)
      as [out'|] eqn:Eo.
    2:{ destruct (12 <=? length row)%nat; [|discriminate H].
        destruct (statsOfRow toInt64 row); discriminate H. }
    destruct (IH out' eq_refl) as [Hlen Hrows].
    destruct (12 <=? length row)%nat eqn:E.
    + apply Nat.leb_le in E.
      destruct (statsOfRow toInt64 row) as [s|] eqn:Es; [|discriminate H].
      injection H as H. subst out. split; [simpl; congruence|].
      intros [|i] data Hi.
      * injection Hi as Hi. subst data. split; [lia|]. intros _.
        exists s. split; [exact Es|reflexivity].
      * apply Hrows. exact Hi.
    + apply Nat.leb_gt in E. injection H as H. subst out.
      split; [simpl; congruence|]. intros [|i] data Hi.
      * injection Hi as Hi. subst data. split; [reflexivity|lia].
      * apply Hrows. exact Hi.
Qed.

Lemma GetFundingStatsWithContext_keeps_rows_witness :
  let rawData : list (list (Json Z)) :=
    [replicate 12 (JNumber 7); [JNumber 1; JNumber 2]] in
  ∃ out, GetFundingStatsWithContext_convert 0 id rawData = Some out
         ∧ length out = 2%nat
         ∧ out !! 1%nat = Some (zeroFundingStats Z 0).
Proof.
  eexists. split; [reflexivity|].
  destruct (GetFundingStatsWithContext_keeps_rows (float64 := Z) 0 id
              [replicate 12 (JNumber 7); [JNumber 1; JNumber 2]] _ eq_refl)
    as [Hlen Hrows].
  split; [exact Hlen|].
  apply (proj1 (Hrows 1%nat [JNumber 1; JNumber 2] eq_refl)).
  simpl. lia.
Defined.

(** X20: [GetFundingStatsWithTimeRangeWithContext] converts a response as
    [GetFundingStatsWithContext] converts what is left of it when the rows of
    fewer than 12 cells are taken out; the two panic on the same
    responses. *)
Theorem ranged_conversion_skips_short_rows {float64 : Type}
  (fzero : float64) (toInt64 : float64 → Z)
  (rawData : list (list (Json float64))) :
  GetFundingStatsWithTimeRangeWithContext_convert toInt64 rawData
  = GetFundingStatsWithContext_convert fzero toInt64
      (filter (λ data, (12 <= length data)%nat) rawData)
  ∧ (is_Some (GetFundingStatsWithTimeRangeWithContext_convert toInt64
                rawData)
     ↔ is_Some (GetFundingStatsWithContext_convert fzero toInt64 rawData)).
Proof.
  induction rawData as [|row rest [IH1 IH2]]; [split; reflexivity|].
  rewrite GetFundingStatsWithTimeRangeWithContext_convert_cons,
    GetFundingStatsWithContext_convert_cons.
  destruct (12 <=? length row)%nat eqn:E.
  - apply Nat.leb_le in E. rewrite filter_cons_True by exact E.
    rewrite GetFundingStatsWithContext_convert_cons.
    apply Nat.leb_le in E. rewrite E. rewrite <- IH1.
    split; [reflexivity|].
    destruct (statsOfRow toInt64 row); simpl;
      [|split; intros [? ?]; discriminate].
    destruct (GetFundingStatsWithTimeRangeWithContext_convert toInt64 rest),
      (GetFundingStatsWithContext_convert fzero toInt64 rest); simpl;
      split; intros Hs; try (eexists; reflexivity); exfalso;
      first [ exact (is_Some_None Hs)
            | exact (is_Some_None (proj1 IH2 (mk_is_Some _ _ eq_refl)))
            | exact (is_Some_None (proj2 IH2 (mk_is_Some _ _ eq_refl))) ].
  - apply Nat.leb_gt in E. rewrite filter_cons_False by lia.
    split; [exact IH1|]. rewrite IH2.
    destruct (GetFundingStatsWithContext_convert fzero toInt64 rest); simpl;
      split; intros Hs; try (eexists; reflexivity); exfalso;
      exact (is_Some_None Hs).
Qed.

(** X21: the conversion of [GetFundingStatsWithContext] panics exactly on
    the responses with a row of at least 12 cells of which one of the cells
    read (0, 3, 4, 7, 8, 11) is not a number; rows of fewer than 12 cells
    never make it panic, whatever they hold. *)
Theorem conversion_panics_on_bad_row {float64 : Type}
  (fzero : float64) (toInt64 : float64 → Z)
  (rawData : list (list (Json float64))) :
  GetFundingStatsWithContext_convert fzero toInt64 rawData = None
  ↔ Exists bad_row rawData.
Proof.
  induction rawData as [|row rest IH].
  - split; [discriminate|]. intros H. inversion H.
  - rewrite GetFundingStatsWithContext_convert_cons.
    rewrite Exists_cons, <- IH. unfold bad_row.
    rewrite <- (statsOfRow_None toInt64).
    destruct (12 <=? length row)%nat eqn:E.
    + apply Nat.leb_le in E. destruct (statsOfRow toInt64 row); simpl.
      * destruct (GetFundingStatsWithContext_convert fzero toInt64 rest);
          simpl; split; try discriminate; try tauto.
        intros [[_ H]|H]; discriminate.
      * split; [|reflexivity]. intros _. left. split; [exact E|reflexivity].
    + apply Nat.leb_gt in E.
      destruct (GetFundingStatsWithContext_convert fzero toInt64 rest);
        simpl; split; try discriminate; try tauto.
      intros [[H _]|H]; [lia|discriminate].
Qed.


(** * The statistics jobs of [main.go] *)

Lemma saveLoop_bound {Stats : Type} (save : nat → Stats → bool)
  (l : list Stats) : ∀ i count,
  (count <= saveLoop Stats save i l count <= count + length l)%nat.
Proof.
  induction l as [|s l IH]; intros i count; simpl; [lia|].
  destruct (save i s).
  - specialize (IH (S i) (S count)). lia.
  - specialize (IH (S i) count). lia.
Qed.

Lemma loop_all_ranged conv_overflow api top slp t fuel : ∀ a err r evs,
  Execute_loop conv_overflow api top slp t fuel a err = Some (r, evs) →
  all_ranged ((0 <? FS_Start t) || (0 <? FS_End t)) evs.
Proof.
  unfold all_ranged.
  induction fuel as [|fuel IH]; intros a err r evs H; simpl in H.
  - destruct (a <=? _); [discriminate|]. injection H as _ <-.
    repeat constructor.
  - destruct (a <=? _); [|injection H as _ <-; repeat constructor].
    destruct (top a); [injection H as _ <-; repeat constructor|].
    destruct (api a) as [e|]; [|injection H as _ <-; repeat constructor].
    destruct (a <? _).
    + destruct (slp a); [injection H as _ <-; repeat constructor|].
      destruct (Execute_loop conv_overflow api top slp t fuel (a + 1)
                  (Some e)) as [[r' evs']|] eqn:E; [|discriminate].
      simpl in H. injection H as _ <-.
      repeat (constructor; [try exact I; reflexivity|]). eapply IH, E.
    + destruct (Execute_loop conv_overflow api top slp t fuel (a + 1)
                  (Some e)) as [[r' evs']|] eqn:E; [|discriminate].
      simpl in H. injection H as _ <-.
      constructor; [reflexivity|]. eapply IH, E.
Qed.

(** From [Execute] on, a job returns; it fails with the error of the
    task, and with nothing else. *)
Lemma runStatsTask_returns {Stats : Type} conv_overflow api top slp
  (data : list Stats) save t execFailed getFailed :
  ∃ o r,
    runStatsTask Stats conv_overflow api top slp data save t execFailed
      getFailed = Some o
    ∧ GetFundingStatsTask_Execute conv_overflow api top slp t
      = Some (r, task_events o)
    ∧ ret o = (λ e, execFailed +:+ e) <$> r
    ∧ (saved o <= save_attempts o <= length data)%nat
    ∧ (r ≠ None → save_attempts o = 0%nat)
    ∧ (calls (task_events o)
       <= Z.to_nat (MaxRetries (BaseTask_RetryPolicy (FS_BaseTask t)) + 1))
      %nat
    ∧ all_ranged ((0 <? FS_Start t) || (0 <? FS_End t)) (task_events o).
Proof.
  destruct (loop_general conv_overflow api top slp t
              (Z.to_nat (MaxRetries (BaseTask_RetryPolicy (FS_BaseTask t))
                         + 1)) 0 None)
    as (r & d & evs & H1 & H2 & _ & H4 & H5 & _); [lia|].
  pose proof (loop_all_ranged _ _ _ _ _ _ _ _ _ _ H1) as Hr.
  replace (MaxRetries (BaseTask_RetryPolicy (FS_BaseTask t)) + 1 - 0)
    with (MaxRetries (BaseTask_RetryPolicy (FS_BaseTask t)) + 1) in H5
    by lia.
  unfold runStatsTask. unfold GetFundingStatsTask_Execute. rewrite H1.
  simpl. destruct r as [e|].
  - eexists _, (Some e). split; [reflexivity|]. simpl.
    repeat split; try assumption; try lia.
  - rewrite H2. eexists _, None. split; [reflexivity|]. simpl.
    pose proof (saveLoop_bound save (if d then data else []) 0 0) as Hb.
    assert (Hlen : (length (if d then data else []) <= length data)%nat)
      by (destruct d; simpl; lia).
    repeat split; try assumption; try lia. intros Hn. congruence.
Qed.


(** X23: with no record in the database, a client that fails every time
    and a context that is not cancelled, [fetchInitialFundingStats] calls
    the client four times, waits 0.5 s, 1 s and 2 s between the calls, saves
    nothing and returns the error of the last call. *)
Theorem fetchInitialFundingStats_gives_up (Stats : Type)
  (conv_overflow : Z) (err : option dberr) (api : Z → error)
  (data : list Stats) (save : nat → Stats → bool) (currency : string) :
  (∀ x, api x ≠ None) →
  (∀ msg, err ≠ Some (ErrOther msg)) →
  ∃ o e,
    fetchInitialFundingStats Stats conv_overflow ([], err) api
      (λ _, false) (λ _, false) data save currency = Some o
    ∧ api 3 = Some e
    ∧ ret o = Some ("failed to execute initial data collection task: "
                    +:+ e)
    ∧ calls (task_events o) = 4%nat
    ∧ sleeps (task_events o)
      = [500 * Millisecond; 1 * Second; 2 * Second]
    ∧ save_attempts o = 0%nat.
Proof.
  intros Hall Herr.
  destruct (Execute_loop_all_fail conv_overflow api
              (NewGetFundingStatsTask currency 250 3) 4 0 None Hall)
    as (evs & Hl & Hc & Hs & _); [simpl; lia|reflexivity|].
  destruct (api 3) as [e|] eqn:He; [|destruct (Hall 3 He)].
  assert (Hrun :
    runStatsTask Stats conv_overflow api (λ _, false) (λ _, false) data
      save (NewGetFundingStatsTask currency 250 3)
      "failed to execute initial data collection task: "
      "failed to get initial data: "
    = Some {| ret := Some ("failed to execute initial data collection task: "
                           +:+ e);
              task_events := evs; save_attempts := 0; saved := 0 |}).
  { unfold runStatsTask, GetFundingStatsTask_Execute.
    change (Z.to_nat
              (MaxRetries
                 (BaseTask_RetryPolicy
                    (FS_BaseTask (NewGetFundingStatsTask currency 250 3)))
               + 1)) with 4%nat.
    rewrite Hl. simpl. rewrite He. reflexivity. }
  eexists _, e. unfold fetchInitialFundingStats.
  split.
  - destruct err as [[|msg]|]; [exact Hrun|destruct (Herr msg eq_refl)
                                |exact Hrun].
  - simpl. split; [reflexivity|]. split; [reflexivity|].
    split; [exact Hc|]. split; [|reflexivity]. rewrite Hs.
    vm_compute. reflexivity.
Qed.

Lemma fetchInitialFundingStats_gives_up_witness :
  ∃ o,
    fetchInitialFundingStats Z 0 ([], Some ErrNoRows) (λ _, Some "boom")
      (λ _, false) (λ _, false) [1; 2] (λ _ _, true) "fUSD" = Some o
    ∧ ret o = Some ("failed to execute initial data collection task: "
                    +:+ "boom")
    ∧ calls (task_events o) = 4%nat.
Proof.
  destruct (fetchInitialFundingStats_gives_up Z 0 (Some ErrNoRows)
              (λ _, Some "boom") [1; 2] (λ _ _, true) "fUSD")
    as (o & e & H1 & H2 & H3 & H4 & _).
  - discriminate.
  - discriminate.
  - exists o. injection H2 as <-. auto.
Defined.


Lemma wrap64_id z : int64 z → wrap64 z = z.
Proof.
  unfold int64, minInt64, maxInt64, wrap64. intros Hz.
  rewrite Z.mod_small; lia.
Qed.

(** X25: when the database answers without an error, the request of
    [updateFundingStats] starts one millisecond after the newest record it
    holds: with a newest timestamp from 0 to the largest but one, and with
    no record at all, every call of the client is the one with a time range;
    with a negative timestamp, or the largest one, whose successor wraps
    around, no call is: the newest records are asked for without a start. *)
Theorem updateFundingStats_time_range (Stats : Type) (mts : Stats → Z)
  (conv_overflow : Z) (latestStats : list Stats) (api : Z → error)
  (top slp : Z → bool) (data : list Stats) (save : nat → Stats → bool)
  (currency : string) :
  let latestMts := match latestStats with [] => 0 | s :: _ => mts s end in
  int64 latestMts →
  ∃ o,
    updateFundingStats Stats mts conv_overflow (latestStats, None) api top
      slp data save currency = Some o
    ∧ (0 <= latestMts < maxInt64 → all_ranged true (task_events o))
    ∧ (latestMts < 0 ∨ latestMts = maxInt64 →
       all_ranged false (task_events o)).
Proof.
  intros latestMts Hint. unfold updateFundingStats. fold latestMts.
  match goal with
  | |- context [runStatsTask _ _ _ _ _ _ _ ?t ?ef ?gf] =>
      destruct (runStatsTask_returns conv_overflow api top slp data save
                  t ef gf)
        as (o & r & Ho & _ & _ & _ & _ & _ & Hranged)
  end.
  exists o. split; [exact Ho|]. simpl in Hranged.
  rewrite orb_false_r in Hranged. unfold int64, minInt64, maxInt64 in *.
  split.
  - intros Hl. rewrite wrap64_id in Hranged
      by (unfold int64, minInt64, maxInt64; lia).
    replace (0 <? latestMts + 1) with true in Hranged
      by (symmetry; apply Z.ltb_lt; lia).
    exact Hranged.
  - intros [Hl| ->].
    + rewrite wrap64_id in Hranged
        by (unfold int64, minInt64, maxInt64; lia).
      replace (0 <? latestMts + 1) with false in Hranged
        by (symmetry; apply Z.ltb_ge; lia).
      exact Hranged.
    + exact Hranged.
Qed.

Lemma updateFundingStats_time_range_witness :
  int64 1700000000000
  ∧ ∃ o,
      updateFundingStats Z id 0 ([1700000000000], None) (λ _, None)
        (λ _, false) (λ _, false) [1700000060000] (λ _ _, true) "fUSD"
      = Some o
      ∧ all_ranged true (task_events o).
Proof.
  assert (Hint : int64 1700000000000) by (split; discriminate).
  split; [exact Hint|].
  destruct (updateFundingStats_time_range Z id 0 [1700000000000]
              (λ _, None) (λ _, false) (λ _, false) [1700000060000]
              (λ _ _, true) "fUSD" Hint) as (o & H1 & H2 & _).
  exists o. split; [exact H1|]. apply H2. split; [discriminate|reflexivity].
Defined.


(** * The client's conversion of the funding book *)

Lemma rawBookOfRow_None {float64 : Type} (toInt : float64 → Z)
  (data : list (Json float64)) :
  rawBookOfRow toInt data = None ↔ ∃ i, (i < 4)%nat ∧ cell data i = None.
Proof.
  unfold rawBookOfRow. split.
  - intros H.
    destruct (cell data 0) eqn:E0; [|exists 0%nat; split; [lia|exact E0]].
    destruct (cell data 1) eqn:E1; [|exists 1%nat; split; [lia|exact E1]].
    destruct (cell data 2) eqn:E2; [|exists 2%nat; split; [lia|exact E2]].
    destruct (cell data 3) eqn:E3; [|exists 3%nat; split; [lia|exact E3]].
    discriminate H.
  - intros (i & Hi & Hc).
    assert (Hcases : i = 0%nat ∨ i = 1%nat ∨ i = 2%nat ∨ i = 3%nat) by lia.
    destruct Hcases as [->|[->|[->| ->]]]; rewrite Hc;
      repeat (match goal with
              | |- context [cell data ?n] => destruct (cell data n)
              end);
      reflexivity.
Qed.

Lemma bookOfRow_None {float64 : Type} (toInt : float64 → Z)
  (data : list (Json float64)) :
  bookOfRow toInt data = None ↔ ∃ i, (i < 4)%nat ∧ cell data i = None.
Proof.
  unfold bookOfRow. split.
  - intros H.
    destruct (cell data 0) eqn:E0; [|exists 0%nat; split; [lia|exact E0]].
    destruct (cell data 1) eqn:E1; [|exists 1%nat; split; [lia|exact E1]].
    destruct (cell data 2) eqn:E2; [|exists 2%nat; split; [lia|exact E2]].
    destruct (cell data 3) eqn:E3; [|exists 3%nat; split; [lia|exact E3]].
    discriminate H.
  - intros (i & Hi & Hc).
    assert (Hcases : i = 0%nat ∨ i = 1%nat ∨ i = 2%nat ∨ i = 3%nat) by lia.
    destruct Hcases as [->|[->|[->| ->]]]; rewrite Hc;
      repeat (match goal with
              | |- context [cell data ?n] => destruct (cell data n)
              end);
      reflexivity.
Qed.

Lemma GetRawFundingBookWithContext_convert_cons {float64 : Type}
  (fzero : float64) (toInt : float64 → Z) (row : list (Json float64))
  (rest : list (list (Json float64))) :
  GetRawFundingBookWithContext_convert fzero toInt (row :: rest)
  = if (4 <=? length row)%nat
    then
      b ← rawBookOfRow toInt row;
      out ← GetRawFundingBookWithContext_convert fzero toInt rest;
      Some (b :: out)
    else
      out ← GetRawFundingBookWithContext_convert fzero toInt rest;
      Some (zeroRawFundingBook float64 fzero :: out).
Proof.
  change (GetRawFundingBookWithContext_convert fzero toInt (row :: rest))
    with (b ← (if (4 <=? length row)%nat then rawBookOfRow toInt row
               else Some (zeroRawFundingBook float64 fzero));
          out ← GetRawFundingBookWithContext_convert fzero toInt rest;
          Some (b :: out)).
  destruct (4 <=? length row)%nat; reflexivity.
Qed.

Lemma GetFundingBookWithContext_convert_cons {float64 : Type}
  (fzero : float64) (toInt : float64 → Z) (row : list (Json float64))
  (rest : list (list (Json float64))) :
  GetFundingBookWithContext_convert fzero toInt (row :: rest)
  = if (4 <=? length row)%nat
    then
      b ← bookOfRow toInt row;
      out ← GetFundingBookWithContext_convert fzero toInt rest;
      Some (b :: out)
    else
      out ← GetFundingBookWithContext_convert fzero toInt rest;
      Some (zeroFundingBook float64 fzero :: out).
Proof.
  change (GetFundingBookWithContext_convert fzero toInt (row :: rest))
    with (b ← (if (4 <=? length row)%nat then bookOfRow toInt row
               else Some (zeroFundingBook float64 fzero));
          out ← GetFundingBookWithContext_convert fzero toInt rest;
          Some (b :: out)).
  destruct (4 <=? length row)%nat; reflexivity.
Qed.

Lemma raw_book_conversion_panics {float64 : Type} (fzero : float64)
  (toInt : float64 → Z) (rawData : list (list (Json float64))) :
  GetRawFundingBookWithContext_convert fzero toInt rawData = None
  ↔ Exists bad_book_row rawData.
Proof.
  induction rawData as [|row rest IH].
  - split; [discriminate|]. intros H. inversion H.
  - rewrite GetRawFundingBookWithContext_convert_cons.
    rewrite Exists_cons, <- IH. unfold bad_book_row.
    rewrite <- (rawBookOfRow_None toInt).
    destruct (4 <=? length row)%nat eqn:E.
    + apply Nat.leb_le in E. destruct (rawBookOfRow toInt row); simpl.
      * destruct (GetRawFundingBookWithContext_convert fzero toInt rest);
          simpl; split; try discriminate; try tauto.
        intros [[_ H]|H]; discriminate.
      * split; [|reflexivity]. intros _. left. split; [exact E|reflexivity].
    + apply Nat.leb_gt in E.
      destruct (GetRawFundingBookWithContext_convert fzero toInt rest);
        simpl; split; try discriminate; try tauto.
      intros [[H _]|H]; [lia|discriminate].
Qed.

Lemma book_conversion_panics {float64 : Type} (fzero : float64)
  (toInt : float64 → Z) (rawData : list (list (Json float64))) :
  GetFundingBookWithContext_convert fzero toInt rawData = None
  ↔ Exists bad_book_row rawData.
Proof.
  induction rawData as [|row rest IH].
  - split; [discriminate|]. intros H. inversion H.
  - rewrite GetFundingBookWithContext_convert_cons.
    rewrite Exists_cons, <- IH. unfold bad_book_row.
    rewrite <- (bookOfRow_None toInt).
    destruct (4 <=? length row)%nat eqn:E.
    + apply Nat.leb_le in E. destruct (bookOfRow toInt row); simpl.
      * destruct (GetFundingBookWithContext_convert fzero toInt rest);
          simpl; split; try discriminate; try tauto.
        intros [[_ H]|H]; discriminate.
      * split; [|reflexivity]. intros _. left. split; [exact E|reflexivity].
    + apply Nat.leb_gt in E.
      destruct (GetFundingBookWithContext_convert fzero toInt rest);
        simpl; split; try discriminate; try tauto.
      intros [[H _]|H]; [lia|discriminate].
Qed.

Lemma raw_book_conversion_length {float64 : Type} (fzero : float64)
  (toInt : float64 → Z) (rawData : list (list (Json float64))) :
  ∀ out, GetRawFundingBookWithContext_convert fzero toInt rawData = Some out
         → length out = length rawData.
Proof.
  induction rawData as [|row rest IH]; intros out H.
  - injection H as H. subst out. reflexivity.
  - rewrite GetRawFundingBookWithContext_convert_cons in H.
    destruct (GetRawFundingBookWithContext_convert fzero toInt rest)
      as [out'|].
    + specialize (IH out' eq_refl).
      destruct (4 <=? length row)%nat;
        [destruct (rawBookOfRow toInt row); [|discriminate H]|];
        injection H as H; subst out; simpl; congruence.
    + destruct (4 <=? length row)%nat; [|discriminate H].
      destruct (rawBookOfRow toInt row); discriminate H.
Qed.

Lemma book_conversion_length {float64 : Type} (fzero : float64)
  (toInt : float64 → Z) (rawData : list (list (Json float64))) :
  ∀ out, GetFundingBookWithContext_convert fzero toInt rawData = Some out
         → length out = length rawData.
Proof.
  induction rawData as [|row rest IH]; intros out H.
  - injection H as H. subst out. reflexivity.
  - rewrite GetFundingBookWithContext_convert_cons in H.
    destruct (GetFundingBookWithContext_convert fzero toInt rest)
      as [out'|].
    + specialize (IH out' eq_refl).
      destruct (4 <=? length row)%nat;
        [destruct (bookOfRow toInt row); [|discriminate H]|];
        injection H as H; subst out; simpl; congruence.
    + destruct (4 <=? length row)%nat; [|discriminate H].
      destruct (bookOfRow toInt row); discriminate H.
Qed.

(** X26: the conversions of [GetRawFundingBookWithContext] and
    [GetFundingBookWithContext] panic on the same responses, those with a
    row of at least 4 cells of which one of the first four is not a number;
    on every other response each returns a slice with one entry for every
    row of the response. *)
Theorem book_conversions_agree {float64 : Type} (fzero : float64)
  (toInt : float64 → Z) (rawData : list (list (Json float64))) :
  (Exists bad_book_row rawData
   ∧ GetRawFundingBookWithContext_convert fzero toInt rawData = None
   ∧ GetFundingBookWithContext_convert fzero toInt rawData = None)
  ∨ (¬ Exists bad_book_row rawData
     ∧ ∃ raw book,
         GetRawFundingBookWithContext_convert fzero toInt rawData = Some raw
         ∧ GetFundingBookWithContext_convert fzero toInt rawData = Some book
         ∧ length raw = length rawData
         ∧ length book = length rawData).
Proof.
  pose proof (raw_book_conversion_panics fzero toInt rawData) as Hr.
  pose proof (book_conversion_panics fzero toInt rawData) as Hb.
  destruct (GetRawFundingBookWithContext_convert fzero toInt rawData)
    as [raw|] eqn:Er.
  - right.
    assert (Hn : ¬ Exists bad_book_row rawData).
    { intros Hbad. apply Hr in Hbad. discriminate. }
    split; [exact Hn|].
    destruct (GetFundingBookWithContext_convert fzero toInt rawData)
      as [book|] eqn:Eb.
    + exists raw, book. split; [reflexivity|]. split; [reflexivity|].
      split.
      * eapply raw_book_conversion_length, Er.
      * eapply book_conversion_length, Eb.
    + destruct Hn. apply Hb. reflexivity.
  - left.
    assert (Hbad : Exists bad_book_row rawData)
      by (apply Hr; reflexivity).
    split; [exact Hbad|]. split; [reflexivity|]. apply Hb. exact Hbad.
Qed.
